(** * Identity reconciliation: the disjoint-set store of [index.js]

    A shallow embedding of the Express handlers of [index.js] and of the
    two Mongoose models [models/contact.js] and [models/parent.js].

    The two collections are lists of documents in insertion order, which
    is the order [findOne] and [find] answer in.  [_id] is unique in each
    collection (an insert of a taken [_id] is refused and the handler's
    [catch] answers).  Both schemas declare [id] as an alias of [_id].
    The alias is a virtual of the documents the models build: [new
    Parent({ id: ... })] sets [_id], and [doc.id] reads it.  A filter is
    sent to the store as it is written, and no stored document has a field
    named [id]: [Parent.deleteOne({ id: ... })] selects no document, and
    [id: { $ne: ... }] holds of every document.

    Request bodies are as the form and the JSON bodies of the README send
    them.  An id is a number, or text that [parseInt] reads as one.  An
    email and a phone number are text, [Some s], the empty text included,
    or they are absent or [null], [None]: the driver sends [undefined] as
    [null], which selects the documents without the field.  [linkedId] is
    text from the form and a number, or [null], in a JSON body.  A
    [Number] whose value is an integer is a [Z]; where the code adds two
    of them the sum is rounded as a double is.  A handler reads the clock
    once: [createdAt] and [updatedAt] of a new document are the [now] it
    is given.  [unionSets] is a procedure: it returns no value on either
    of its paths, and the model gives it the store as its only result. *)

From stdpp Require Import base decidable option list numbers strings.

Local Open Scope Z_scope.

(** ** JavaScript values the handlers test *)

(** [if (s)] on an optional text: absent and empty are both false. *)
Definition truthy (s : option string) : Prop :=
  match s with
  | Some t => t ≠ EmptyString
  | None => False
  end.

Global Instance truthy_dec s : Decision (truthy s).
Proof. destruct s; simpl; apply _. Defined.

(** A number that may be [Infinity], the value of [Math.min()] on no
    argument. *)
Inductive jsnum :=
  | Num (z : Z)
  | Infinity.

Global Instance jsnum_eq_dec : EqDecision jsnum.
Proof. solve_decision. Defined.

Definition Math_min (l : list Z) : jsnum :=
  match l with
  | [] => Infinity
  | x :: l' => Num (foldl Z.min x l')
  end.

(** The double nearest to an integer: 53 significant bits, a tie going to
    the even significand.  Every integer up to [2 ^ 53] in absolute value
    is a double. *)
Definition double_round (z : Z) : Z :=
  let a := Z.abs z in
  if decide (a < 2 ^ 53) then z
  else
    let e := Z.log2 a - 52 in
    let q := a / 2 ^ e in
    let r := a mod 2 ^ e in
    let half := 2 ^ (e - 1) in
    let q' :=
      if decide (r < half) then q
      else if decide (half < r) then q + 1
      else if Z.even q then q else q + 1 in
    Z.sgn z * (q' * 2 ^ e).

(** [x + y] on two [Number]s of integer value.  The sums the handlers
    compute are of a stored id and 1, far below the overflow of a
    double. *)
Definition Number_add (x y : Z) : Z := double_round (x + y).

(** A JavaScript [Set] keeps its elements in the order of their first
    insertion. *)
Section js_set.
Context {A : Type} `{EqDecision A}.

Definition Set_add (x : A) (s : list A) : list A :=
  if decide (x ∈ s) then s else s ++ [x].

Definition Set_from (s : list A) (l : list A) : list A :=
  foldl (λ acc x, Set_add x acc) s l.

Definition new_Set (l : list A) : list A := Set_from [] l.
End js_set.

(** ** The two schemas *)

Inductive LinkPrecedence := primary | secondary.

Global Instance LinkPrecedence_eq_dec : EqDecision LinkPrecedence.
Proof. solve_decision. Defined.

Record Contact := {
  contact_id : Z;
  phoneNumber : option string;
  email : option string;
  linkedId : option Z;
  linkPrecedence : LinkPrecedence;
  createdAt : Z;
  updatedAt : Z;
}.

Record Parent := {
  parent_id : Z;
  parId : Z;
  childIds : list Z;
}.

Global Instance Contact_eq_dec : EqDecision Contact.
Proof. solve_decision. Defined.

Global Instance Parent_eq_dec : EqDecision Parent.
Proof. solve_decision. Defined.

Record Store := {
  contacts : list Contact;
  parents : list Parent;
}.

Definition empty_store : Store := {| contacts := []; parents := [] |}.

(** ** The collection operations the handlers call *)

Section collection.
Context {A : Type}.

Definition findOne (P : A → Prop) `{∀ d, Decision (P d)}
    (coll : list A) : option A :=
  head (filter P coll).

Definition updateMany (P : A → Prop) `{∀ d, Decision (P d)}
    (f : A → A) (coll : list A) : list A :=
  (λ d, if decide (P d) then f d else d) <$> coll.

Fixpoint deleteOne (P : A → Prop) `{∀ d, Decision (P d)}
    (coll : list A) : list A :=
  match coll with
  | [] => []
  | d :: coll' => if decide (P d) then coll' else d :: deleteOne P coll'
  end.

(** [save] of a new document: refused when the [_id] is taken. *)
Definition insertOne (key : A → Z) (d : A) (coll : list A)
    : option (list A) :=
  if decide (key d ∈ key <$> coll) then None else Some (coll ++ [d]).

(** The field [id] of a stored document, as a filter reads it: the
    documents are stored under [_id], and none has a field of the name of
    the alias. *)
Definition field_id (d : A) : option Z := None.
End collection.

Definition with_parId (r : Z) (p : Parent) : Parent :=
  {| parent_id := parent_id p; parId := r; childIds := childIds p |}.

Definition with_childIds (l : list Z) (p : Parent) : Parent :=
  {| parent_id := parent_id p; parId := parId p; childIds := l |}.

(** [save] of a fetched document whose [childIds] were reassigned: only
    the modified path is written, to the document of that [_id]. *)
Definition save_childIds (doc : Parent) (coll : list Parent) : list Parent :=
  updateMany (λ p, parent_id p = parent_id doc) (with_childIds (childIds doc))
    coll.

Definition findById (cid : Z) (coll : list Contact) : option Contact :=
  findOne (λ c, contact_id c = cid) coll.

(** ** [unionSets] *)

(** Line 57 is [Parent.deleteOne({ id: oldParent.id })]: [oldParent.id]
    reads [_id], and the filter is on the field [id]. *)
Definition unionSets (rootA rootB : Z) (db : Store) : Store :=
  match findOne (λ p, parId p = rootA) (parents db),
        findOne (λ p, parId p = rootB) (parents db) with
  | Some parentA, Some parentB =>
      let newRoot := Z.min rootA rootB in
      let oldRoot := if decide (newRoot = rootA) then rootB else rootA in
      let newParent := if decide (newRoot = rootA) then parentA else parentB in
      let oldParent := if decide (newRoot = rootA) then parentB else parentA in
      let updated :=
        updateMany (λ p, parId p = oldRoot) (with_parId newRoot) (parents db) in
      let merged := new_Set (childIds newParent ++ childIds oldParent) in
      let saved := save_childIds (with_childIds merged newParent) updated in
      {| contacts := contacts db;
         parents :=
           deleteOne (λ p, field_id p = Some (parent_id oldParent)) saved |}
  | _, _ => db
  end.

(** ** [POST /add-contact] *)

(** The [linkedId] field of the body, by what the handler does with it:
    [!linkedId], [linkedId.trim()] against the empty text, and
    [parseInt(linkedId)].  The form sends text; a JSON body can hold any
    value. *)
Inductive LinkedIdField :=
  | LinkedMissing              (* absent, or a false value: the empty
                                  text, [null], [false], [0] *)
  | LinkedBlank                (* text of white space only *)
  | LinkedNaN                  (* other text that [parseInt] does not read *)
  | Linked (n : Z)             (* other text, which [parseInt] reads as [n] *)
  | LinkedNotText (n : option Z).
                               (* a true value that is not text, such as
                                  the JSON number 2: it has no [trim];
                                  [n] is what [parseInt] reads of it *)

Record AddContactBody := {
  body_id : Z;
  body_phoneNumber : option string;
  body_email : option string;
  body_linkedId : LinkedIdField;
  (** [None]: a value outside the schema's enum, or none at all *)
  body_linkPrecedence : option LinkPrecedence;
}.

Inductive AddContactResult :=
  | RedirectIndex               (* [/index.html] *)
  | RedirectLinkedIdRequired    (* [/?error=linkedId required ...] *)
  | RedirectError.              (* [/?error=Error fetching contacts] *)

(** [parseInt(linkedId)] on a true [linkedId], [None] for [NaN]. *)
Definition parseInt_linkedId (f : LinkedIdField) : option Z :=
  match f with
  | Linked n => Some n
  | LinkedNotText n => n
  | LinkedMissing | LinkedBlank | LinkedNaN => None
  end.

(** [linkedId ? parseInt(linkedId) : undefined], [None] when the cast of
    the result to [Number] fails. *)
Definition cast_linkedId (f : LinkedIdField) : option (option Z) :=
  match f with
  | LinkedMissing => Some None
  | _ => n ← parseInt_linkedId f; Some (Some n)
  end.

(** The document [new Contact({...})] builds, [None] when its validation
    on [save] fails. *)
Definition new_contact (now : Z) (body : AddContactBody) : option Contact :=
  match body_linkPrecedence body, cast_linkedId (body_linkedId body) with
  | Some lp, Some lid =>
      Some {| contact_id := body_id body;
              phoneNumber := body_phoneNumber body;
              email := body_email body;
              linkedId := lid;
              linkPrecedence := lp;
              createdAt := now;
              updatedAt := now |}
  | _, _ => None
  end.

Definition singleton_parent (i : Z) : Parent :=
  {| parent_id := i; parId := i; childIds := [i] |}.

(** The filter of lines 94-97.  Its clause [id: { $ne: parseInt(id) }]
    is on the field [id]. *)
Definition matching (body : AddContactBody) (c : Contact) : Prop :=
  (phoneNumber c = body_phoneNumber body ∨ email c = body_email body) ∧
  field_id c ≠ Some (body_id body).

Global Instance matching_dec body c : Decision (matching body c).
Proof. unfold matching. apply _. Defined.

(** The roots of the rows that hold the matching ids (lines 101-108). *)
Definition roots_of (matchingIds : list Z) (ps : list Parent) : list Z :=
  foldl (λ roots mid,
           match findOne (λ p, mid ∈ childIds p) ps with
           | Some parentDoc => Set_add (parId parentDoc) roots
           | None => roots
           end) [] matchingIds.

(** Lines 112-123. *)
Definition union_linked (body : AddContactBody) (newRoot : Z) (db : Store)
    : Store :=
  match body_linkPrecedence body, parseInt_linkedId (body_linkedId body) with
  | Some secondary, Some l =>
      match findOne (λ p, l ∈ childIds p) (parents db) with
      | Some immediateParent =>
          let linkedRoot := parId immediateParent in
          if decide (linkedRoot ≠ newRoot)
          then unionSets linkedRoot newRoot db
          else db
      | None => db
      end
  | _, _ => db
  end.

(** Lines 125-130. *)
Definition union_roots (newRoot : Z) (roots : list Z) (db : Store) : Store :=
  foldl (λ db root,
           if decide (root ≠ newRoot) then unionSets newRoot root db else db)
    db roots.

(** The test of lines 66-69 sends the request back:
    [linkPrecedence === "secondary"] and [linkedId] false, or text that
    [trim] leaves empty. *)
Definition linkedId_required (body : AddContactBody) : Prop :=
  body_linkPrecedence body = Some secondary ∧
  (body_linkedId body = LinkedMissing ∨ body_linkedId body = LinkedBlank).

Global Instance linkedId_required_dec body : Decision (linkedId_required body).
Proof.
  unfold linkedId_required.
  destruct (body_linkPrecedence body) as [[]|], (body_linkedId body);
    (left; by auto) || (right; intros [? [?|?]]; congruence).
Defined.

(** The test of lines 66-69 throws: [linkPrecedence === "secondary"] and
    a true [linkedId] that has no method [trim]. *)
Definition trim_throws (body : AddContactBody) : Prop :=
  body_linkPrecedence body = Some secondary ∧
  ∃ n, body_linkedId body = LinkedNotText n.

Global Instance trim_throws_dec body : Decision (trim_throws body).
Proof.
  unfold trim_throws.
  destruct (body_linkPrecedence body) as [[]|], (body_linkedId body);
    (left; by eauto) || (right; intros [? [? ?]]; congruence).
Defined.

Definition addContact (now : Z) (body : AddContactBody) (db : Store)
    : AddContactResult * Store :=
  if decide (linkedId_required body) then (RedirectLinkedIdRequired, db)
  else if decide (trim_throws body) then (RedirectError, db)
  else
    match new_contact now body with
    | None => (RedirectError, db)
    | Some newContact =>
        match insertOne contact_id newContact (contacts db) with
        | None => (RedirectError, db)
        | Some cs =>
            let id := body_id body in
            match insertOne parent_id (singleton_parent id) (parents db) with
            | None => (RedirectError, {| contacts := cs; parents := parents db |})
            | Some ps =>
                let db1 := {| contacts := cs; parents := ps |} in
                let matchingContacts := filter (matching body) cs in
                let matchingIds := contact_id <$> matchingContacts in
                let roots := roots_of matchingIds ps in
                let newRoot := id in
                let db2 := union_linked body newRoot db1 in
                (RedirectIndex, union_roots newRoot roots db2)
            end
        end
    end.

(** ** [POST /identify] *)

Record IdentifyBody := {
  q_email : option string;
  q_phoneNumber : option string;
}.

Record Summary := {
  (** the legacy field, [None] when the response does not carry it *)
  primaryContatctId : option jsnum;
  primaryContactId : jsnum;
  emails : list string;
  phoneNumbers : list string;
  secondaryContactIds : list Z;
}.

Inductive IdentifyResponse :=
  | Status400
  | Status500
  | Json (contact : Summary).

(** [Contact.find({ $or: orFilters })]. *)
Definition matches (q : IdentifyBody) (c : Contact) : Prop :=
  (truthy (q_email q) ∧ email c = q_email q) ∨
  (truthy (q_phoneNumber q) ∧ phoneNumber c = q_phoneNumber q).

Global Instance matches_dec q c : Decision (matches q c).
Proof. unfold matches. apply _. Defined.

(** The greatest [_id] of the collection, [findOne({}).sort({ _id: -1 })]. *)
Definition max_id (cs : list Contact) : option Z :=
  match contact_id <$> cs with
  | [] => None
  | x :: l => Some (foldl Z.max x l)
  end.

Definition text_list (s : option string) : list string :=
  match s with
  | Some t => if decide (truthy s) then [t] else []
  | None => []
  end.

(** [maxDoc ? Number(maxDoc._id) + 1 : 1]. *)
Definition next_id (db : Store) : Z :=
  match max_id (contacts db) with
  | Some m => Number_add m 1
  | None => 1
  end.

(** Lines 154-182. *)
Definition identify_new (now : Z) (q : IdentifyBody) (db : Store)
    : IdentifyResponse * Store :=
  let newId := next_id db in
  let created :=
    {| contact_id := newId;
       phoneNumber := q_phoneNumber q;
       email := q_email q;
       linkedId := None;
       linkPrecedence := primary;
       createdAt := now;
       updatedAt := now |} in
  match insertOne contact_id created (contacts db) with
  | None => (Status500, db)
  | Some cs =>
      match insertOne parent_id (singleton_parent newId) (parents db) with
      | None => (Status500, {| contacts := cs; parents := parents db |})
      | Some ps =>
          (Json {| primaryContatctId := None;
                   primaryContactId := Num newId;
                   emails := text_list (q_email q);
                   phoneNumbers := text_list (q_phoneNumber q);
                   secondaryContactIds := [] |},
           {| contacts := cs; parents := ps |})
      end
  end.

(** Lines 195-200: the loop over [rootsArr], [baseRoot] being updated as
    it goes. *)
Fixpoint union_all (rootsArr : list Z) (baseRoot : Z) (db : Store)
    : Z * Store :=
  match rootsArr with
  | [] => (baseRoot, db)
  | r :: rest =>
      if decide (r ≠ baseRoot)
      then union_all rest (Z.min baseRoot r) (unionSets baseRoot r db)
      else union_all rest baseRoot db
  end.

(** Lines 207-219: the fetch of every id of [idList], one by one. *)
Fixpoint collect (idList : list Z) (cs : list Contact)
    (seenIds : list Z) (emailSet phoneSet : list string)
    : list string * list string :=
  match idList with
  | [] => (emailSet, phoneSet)
  | cid :: rest =>
      if decide (cid ∈ seenIds) then collect rest cs seenIds emailSet phoneSet
      else
        let seenIds := Set_add cid seenIds in
        match findById cid cs with
        | None => collect rest cs seenIds emailSet phoneSet
        | Some doc =>
            let emailSet :=
              match email doc with
              | Some e => if decide (truthy (email doc))
                          then Set_add e emailSet else emailSet
              | None => emailSet
              end in
            let phoneSet :=
              match phoneNumber doc with
              | Some p => if decide (truthy (phoneNumber doc))
                          then Set_add p phoneSet else phoneSet
              | None => phoneSet
              end in
            collect rest cs seenIds emailSet phoneSet
        end
  end.

(** Lines 202-232: the summary read from the first row whose root is
    [baseRoot]. *)
Definition match_summary (baseRoot : Z) (db : Store) : Summary :=
  let finalParent := findOne (λ p, parId p = baseRoot) (parents db) in
  let idList := baseRoot :: from_option childIds [] finalParent in
  let '(emailSet, phoneSet) := collect idList (contacts db) [] [] [] in
  let secondaryIds := filter (λ cid, cid ≠ baseRoot) idList in
  {| primaryContatctId := Some (Num baseRoot);
     primaryContactId := Num baseRoot;
     emails := emailSet;
     phoneNumbers := phoneSet;
     secondaryContactIds := secondaryIds |}.

(** Lines 184-232.  With no root at all [baseRoot] is [Infinity]: the loop
    does not run, no row and no contact has that id, and the lists of the
    response are empty. *)
Definition identify_merge (matchingContacts : list Contact) (db : Store)
    : IdentifyResponse * Store :=
  let matchedIds := contact_id <$> matchingContacts in
  let parentRoots :=
    filter (λ p, Exists (λ m, m ∈ childIds p) matchedIds) (parents db) in
  let rootsArr := new_Set (parId <$> parentRoots) in
  match Math_min rootsArr with
  | Infinity =>
      (Json {| primaryContatctId := Some Infinity;
               primaryContactId := Infinity;
               emails := [];
               phoneNumbers := [];
               secondaryContactIds := [] |}, db)
  | Num base =>
      let '(baseRoot, db') := union_all rootsArr base db in
      (Json (match_summary baseRoot db'), db')
  end.

Definition identify (now : Z) (q : IdentifyBody) (db : Store)
    : IdentifyResponse * Store :=
  if decide (truthy (q_email q) ∨ truthy (q_phoneNumber q)) then
    match filter (matches q) (contacts db) with
    | [] => identify_new now q db
    | matchingContacts => identify_merge matchingContacts db
    end
  else (Status400, db).

(** ** [GET /contacts] *)

Definition listContacts (db : Store) : list Contact * Store :=
  (contacts db, db).

(** ** Sequences of operations *)

Inductive Op :=
  | OpAddContact (now : Z) (body : AddContactBody)
  | OpIdentify (now : Z) (q : IdentifyBody)
  | OpUnionSets (rootA rootB : Z)
  | OpList.

Definition step (op : Op) (db : Store) : Store :=
  match op with
  | OpAddContact now body => (addContact now body db).2
  | OpIdentify now q => (identify now q db).2
  | OpUnionSets rootA rootB => unionSets rootA rootB db
  | OpList => (listContacts db).2
  end.

Definition run (ops : list Op) (db : Store) : Store :=
  foldl (λ db op, step op db) db ops.

Definition reachable (db : Store) : Prop :=
  ∃ ops, run ops empty_store = db.

(** ** The rows and their roots *)

(** [x] is a member of a row whose root is [r]. *)
Definition member_of (db : Store) (r x : Z) : Prop :=
  ∃ p, p ∈ parents db ∧ parId p = r ∧ x ∈ childIds p.

Definition is_root (db : Store) (r : Z) : Prop :=
  ∃ p, p ∈ parents db ∧ parId p = r.

(** The row of the id [x], the one created with it, has the root [r]. *)
Definition has_root (db : Store) (x r : Z) : Prop :=
  ∃ p, p ∈ parents db ∧ parent_id p = x ∧ parId p = r.

(** The rows of [x] and of [y] have one root. *)
Definition same_root (db : Store) (x y : Z) : Prop :=
  ∃ r, has_root db x r ∧ has_root db y r.

(** Two ids are members of one row. *)
Definition same_set (db : Store) (x y : Z) : Prop :=
  ∃ p, p ∈ parents db ∧ x ∈ childIds p ∧ y ∈ childIds p.

(** What the handlers keep true of the two collections: every contact has
    the row that was created with it, in the same order; a row holds its
    own id and ids of rows of its own root only; a root is the root of
    its own row and is not greater than the id of a row that has it. *)
Record Inv (db : Store) : Prop := {
  inv_contacts : NoDup (contact_id <$> contacts db);
  inv_keys : parent_id <$> parents db = contact_id <$> contacts db;
  inv_children : ∀ p, p ∈ parents db → NoDup (childIds p);
  inv_self : ∀ p, p ∈ parents db → parent_id p ∈ childIds p;
  inv_members : ∀ p x,
    p ∈ parents db → x ∈ childIds p → has_root db x (parId p);
  inv_least : ∀ p, p ∈ parents db → parId p ≤ parent_id p;
  inv_root : ∀ p, p ∈ parents db → has_root db (parId p) (parId p);
}.

(** What [unionSets] makes of a row when it has found both roots:
    [newParent] is the row it read for the smaller root and [merged] the
    members it gives it. *)
Definition union_row (rootA rootB : Z) (newParent : Parent) (merged : list Z)
    (p : Parent) : Parent :=
  {| parent_id := parent_id p;
     parId := if decide (parId p = rootA ∨ parId p = rootB)
              then Z.min rootA rootB else parId p;
     childIds := if decide (parent_id p = parent_id newParent)
                 then merged else childIds p |}.

(** The members of [db] under each root are those of [db0], the members
    under the roots [D] being under [base]. *)
Definition merged_view (db0 : Store) (D : list Z) (base : Z) (db : Store)
    : Prop :=
  ∀ r x,
    member_of db r x ↔
    (r = base ∧ ∃ d, d ∈ D ∧ member_of db0 d x) ∨
    ((r ∉ D) ∧ member_of db0 r x).

(** The roots of [db] are those of [db0], the roots [D] being replaced by
    [base]; no row is added or removed. *)
Definition merged_roots (db0 : Store) (D : list Z) (base : Z) (db : Store)
    : Prop :=
  ∀ x r,
    has_root db x r ↔
    ∃ r0, has_root db0 x r0 ∧ r = (if decide (r0 ∈ D) then base else r0).

(** [m] is the least element of [l]. *)
Definition least (m : Z) (l : list Z) : Prop :=
  m ∈ l ∧ ∀ d, d ∈ l → m ≤ d.

(** The calls of [unionSets] the handlers make: with two different
    arguments (the tests [!==] of lines 119, 127 and 196). *)
Definition guarded (op : Op) : Prop :=
  match op with
  | OpUnionSets rootA rootB => rootA ≠ rootB
  | _ => True
  end.

Definition guarded_reachable (db : Store) : Prop :=
  ∃ ops, Forall guarded ops ∧ run ops empty_store = db.

(** The text a fetched document adds to [emailSet], to [phoneSet]. *)
Definition email_of (cs : list Contact) (cid : Z) : option string :=
  doc ← findById cid cs;
  if decide (truthy (email doc)) then email doc else None.

Definition phone_of (cs : list Contact) (cid : Z) : option string :=
  doc ← findById cid cs;
  if decide (truthy (phoneNumber doc)) then phoneNumber doc else None.

(** The [rootsArr] of the match branch of [/identify] (lines 185-192). *)
Definition rootsArr_of (matchingContacts : list Contact) (db : Store)
    : list Z :=
  new_Set (parId <$>
    filter (λ p, Exists (λ m, m ∈ childIds p) (contact_id <$> matchingContacts))
      (parents db)).

(** No row is removed and no member is dropped from [db] to [db']. *)
Definition sets_grow (db db' : Store) : Prop :=
  ∀ x y, same_set db x y → same_set db' x y.

(** No two rows that have one root in [db] have two in [db']. *)
Definition roots_grow (db db' : Store) : Prop :=
  ∀ x y, same_root db x y → same_root db' x y.

(** The store of [/add-contact] once the contact and its row are saved
    (line 91). *)
Definition saved_store (c : Contact) (db : Store) : Store :=
  {| contacts := contacts db ++ [c];
     parents := parents db ++ [singleton_parent (contact_id c)] |}.

(** The contact [/identify] creates for a query that matches nothing
    (lines 160-167). *)
Definition created_contact (now : Z) (q : IdentifyBody) (db : Store)
    : Contact :=
  {| contact_id := next_id db;
     phoneNumber := q_phoneNumber q;
     email := q_email q;
     linkedId := None;
     linkPrecedence := primary;
     createdAt := now;
     updatedAt := now |}.

(** The ids a double holds exactly, with their successors. *)
Definition safe_id (i : Z) : Prop := Z.abs i < 2 ^ 53.

(** ** Deciding the predicates on a given store *)

Global Instance guarded_dec op : Decision (guarded op).
Proof. destruct op; simpl; apply _. Defined.

Global Instance member_of_dec db r x : Decision (member_of db r x).
Proof.
  refine (cast_if
    (decide (Exists (λ p, parId p = r ∧ x ∈ childIds p) (parents db))));
    unfold member_of; rewrite Exists_exists in *; naive_solver.
Defined.

Global Instance is_root_dec db r : Decision (is_root db r).
Proof.
  refine (cast_if (decide (Exists (λ p, parId p = r) (parents db))));
    unfold is_root; rewrite Exists_exists in *; naive_solver.
Defined.

Global Instance has_root_dec db x r : Decision (has_root db x r).
Proof.
  refine (cast_if
    (decide (Exists (λ p, parent_id p = x ∧ parId p = r) (parents db))));
    unfold has_root; rewrite Exists_exists in *; naive_solver.
Defined.

Global Instance same_set_dec db x y : Decision (same_set db x y).
Proof.
  refine (cast_if
    (decide (Exists (λ p, x ∈ childIds p ∧ y ∈ childIds p) (parents db))));
    unfold same_set; rewrite Exists_exists in *; naive_solver.
Defined.

Global Instance safe_id_dec i : Decision (safe_id i).
Proof. unfold safe_id. apply _. Defined.

(** ** The statements of the specification, in its own words

    Each definition below follows a sentence of the specification, to be
    compared with the handlers. *)

(** [find(memberId)]: the root of the row that holds [memberId], as lines
    104-106 and 114-118 look it up. *)
Definition find_root (memberId : Z) (db : Store) : option Z :=
  parId <$> findOne (λ p, memberId ∈ childIds p) (parents db).

(** Canonical root: the [parId] of every row is the least of its
    [childIds], and so one of them. *)
Definition canonical_rows (db : Store) : Prop :=
  ∀ p, p ∈ parents db →
       Math_min (childIds p) = Num (parId p) ∧ parId p ∈ childIds p.

(** Partition: the rows cover the contact ids, two rows share no member,
    every contact id is in exactly one row. *)
Definition partition (db : Store) : Prop :=
  NoDup (parent_id <$> parents db) ∧
  (∀ x, x ∈ contact_id <$> contacts db ↔
        ∃ p, p ∈ parents db ∧ x ∈ childIds p) ∧
  (∀ p q x, p ∈ parents db → q ∈ parents db →
            x ∈ childIds p → x ∈ childIds q → p = q) ∧
  (∀ c, c ∈ contacts db →
        ∃ p, (p ∈ parents db ∧ contact_id c ∈ childIds p) ∧
             ∀ q, q ∈ parents db → contact_id c ∈ childIds q → q = p).

(** Union contract: both ids are resolved to their roots; two different
    roots are merged under the smaller one, one shared root is a no-op. *)
Definition union_contract (idA idB : Z) (db : Store) : Prop :=
  ∀ rA rB,
    find_root idA db = Some rA → find_root idB db = Some rB →
    (rA ≠ rB →
     ∀ r x, member_of (unionSets idA idB db) r x ↔
            (r = Z.min rA rB ∧ (member_of db rA x ∨ member_of db rB x)) ∨
            (r ≠ rA ∧ r ≠ rB ∧ member_of db r x)) ∧
    (rA = rB → unionSets idA idB db = db).


(** A query that matches nothing creates a new identity: one new primary
    contact, whose id is greater than every id there was, and a summary
    with that id and no secondary id. *)
Definition new_identity_created (now : Z) (q : IdentifyBody) (db : Store)
    : Prop :=
  truthy (q_email q) ∨ truthy (q_phoneNumber q) →
  filter (matches q) (contacts db) = [] →
  ∃ s c db',
    identify now q db = (Json s, db') ∧
    contacts db' = contacts db ++ [c] ∧
    (∀ c0, c0 ∈ contacts db → contact_id c0 < contact_id c) ∧
    linkPrecedence c = primary ∧
    primaryContactId s = Num (contact_id c) ∧
    secondaryContactIds s = [].

(** Validation of a secondary contact: without a [linkedId] that
    references an existing record the request fails and writes nothing. *)
Definition secondary_validated (now : Z) (body : AddContactBody) (db : Store)
    : Prop :=
  body_linkPrecedence body = Some secondary →
  (¬ ∃ l, parseInt_linkedId (body_linkedId body) = Some l ∧
          l ∈ contact_id <$> contacts db) →
  (addContact now body db).1 ≠ RedirectIndex ∧ (addContact now body db).2 = db.

(** A union that names an id without a row fails: the call does not
    return. *)
Definition invalid_state_reported (rootA rootB : Z) (db : Store) : Prop :=
  (¬ is_root db rootA ∨ ¬ is_root db rootB) →
  ¬ ∃ db', unionSets rootA rootB db = db'.

(** Merge determinism: the roots [rs] end in a single row, whose root is
    their minimum and whose members are those of all their rows. *)
Definition merged_into_one (rs : list Z) (db final : Store) : Prop :=
  ∃ p, filter (λ q, parId q ∈ rs) (parents final) = [p] ∧
       least (parId p) rs ∧
       ∀ x, x ∈ childIds p ↔ ∃ r, r ∈ rs ∧ member_of db r x.

(** The pairwise unions of the first root of a call order with each of
    the roots that follow it. *)
Definition union_in_order (order : list Z) (db : Store) : Store :=
  match order with
  | [] => db
  | r0 :: rest => foldl (λ s r, unionSets r0 r s) db rest
  end.

Definition merge_determinism (rs : list Z) (db : Store) : Prop :=
  ∀ order, order ≡ₚ rs → merged_into_one rs db (union_in_order order db).

(** Both fields of the primary id in every summary. *)
Definition dual_primary_fields (now : Z) (q : IdentifyBody) (db : Store)
    : Prop :=
  ∀ s db', identify now q db = (Json s, db') →
           primaryContatctId s = Some (primaryContactId s).

(** ** Sample requests and stores *)

Definition contact_body (i : Z) (e t : option string) (l : LinkedIdField)
    (lp : LinkPrecedence) : AddContactBody :=
  {| body_id := i; body_phoneNumber := t; body_email := e;
     body_linkedId := l; body_linkPrecedence := Some lp |}.

(** The scenario of the specification: 1 and 2 share an email. *)
Definition ops_pair : list Op :=
  [OpAddContact 10 (contact_body 1 (Some "a@x.com") None LinkedMissing primary);
   OpAddContact 11
     (contact_body 2 (Some "a@x.com") (Some "111") (Linked 1) secondary)].

Definition db_pair : Store := run ops_pair empty_store.

(** A third, unrelated contact beside the pair. *)
Definition db_pair_third : Store :=
  run (ops_pair ++
       [OpAddContact 12
          (contact_body 3 (Some "c@x.com") (Some "333") LinkedMissing primary)])
    empty_store.

(** Three unrelated contacts, ids 5, 2 and 9. *)
Definition ops_three : list Op :=
  [OpAddContact 10
     (contact_body 5 (Some "e@x.com") (Some "555") LinkedMissing primary);
   OpAddContact 11
     (contact_body 2 (Some "b@x.com") (Some "222") LinkedMissing primary);
   OpAddContact 12
     (contact_body 9 (Some "i@x.com") (Some "999") LinkedMissing primary)].

Definition db_three : Store := run ops_three empty_store.



(** One contact, then a union of its root with itself. *)
Definition ops_self_union : list Op :=
  [OpAddContact 10 (contact_body 1 (Some "a@x.com") None LinkedMissing primary);
   OpUnionSets 1 1].

Definition db_self_union : Store := run ops_self_union empty_store.

(** Two unrelated contacts, and a third request that matches both. *)
Definition db_two_sets : Store :=
  run [OpAddContact 10
         (contact_body 1 (Some "a@x.com") (Some "111") LinkedMissing primary);
       OpAddContact 11
         (contact_body 2 (Some "b@x.com") (Some "222") LinkedMissing primary)]
    empty_store.

Definition third_contact : AddContactBody :=
  contact_body 3 (Some "a@x.com") (Some "222") LinkedMissing primary.

(** Two unrelated contacts, 9 and 5, and a request for a contact that
    shares the email of 9 and is linked to 5. *)
Definition db_nine_five : Store :=
  run [OpAddContact 10
         (contact_body 9 (Some "e@x.com") (Some "999") LinkedMissing primary);
       OpAddContact 11
         (contact_body 5 (Some "b@x.com") (Some "555") LinkedMissing primary)]
    empty_store.

Definition linked_contact : AddContactBody :=
  contact_body 7 (Some "e@x.com") (Some "777") (Linked 5) secondary.

(** A contact whose id is [2 ^ 53]. *)
Definition ops_big : list Op :=
  [OpAddContact 10
     (contact_body 9007199254740992 (Some "big@x.com") None LinkedMissing
        primary)].

Definition db_big : Store := run ops_big empty_store.


Definition by_email (e : string) : IdentifyBody :=
  {| q_email := Some e; q_phoneNumber := None |}.

(** ** Tactics for the sample stores *)

(** A decidable statement about given data, by computation. *)
Ltac by_decide := apply (bool_decide_unpack _); vm_compute; exact I.

(** A sample store is reached by the run that defines it. *)
Ltac by_run := eexists; split; [|reflexivity]; by repeat constructor.

(** * Properties *)

(** ** Collections *)

Section collection_facts.
Context {A : Type}.
Implicit Types (d : A) (coll : list A).

Lemma findOne_Some (P : A → Prop) `{∀ d, Decision (P d)} coll d :
  findOne P coll = Some d → d ∈ coll ∧ P d.
Proof.
  unfold findOne. intros Hd.
  apply head_Some_elem_of in Hd. by apply list_elem_of_filter in Hd as [? ?].
Qed.

Lemma findOne_None (P : A → Prop) `{∀ d, Decision (P d)} coll :
  findOne P coll = None ↔ ∀ d, d ∈ coll → ¬ P d.
Proof.
  unfold findOne. rewrite head_None. split.
  - intros Hnil d Hd HP.
    assert (d ∈ filter P coll) as Hin by (by apply list_elem_of_filter).
    rewrite Hnil in Hin. by apply elem_of_nil in Hin.
  - intros Hall. induction coll as [|d coll IH]; [done|].
    rewrite filter_cons. case_decide as HP.
    + exfalso. eapply Hall; [left|done].
    + apply IH. intros d' Hd'. apply Hall. by right.
Qed.

Lemma findOne_is_Some (P : A → Prop) `{∀ d, Decision (P d)} coll d :
  d ∈ coll → P d → is_Some (findOne P coll).
Proof.
  intros Hd HP. destruct (findOne P coll) eqn:E; [done|].
  exfalso. by eapply findOne_None.
Qed.

(** When one document at most meets the filter, [findOne] returns it. *)
Lemma findOne_unique (P : A → Prop) `{∀ d, Decision (P d)} coll d :
  d ∈ coll → P d → (∀ d', d' ∈ coll → P d' → d' = d) →
  findOne P coll = Some d.
Proof.
  intros Hd HP Huniq. destruct (findOne_is_Some P coll d Hd HP) as [d' Hd'].
  rewrite Hd'. f_equal. apply findOne_Some in Hd' as [? ?]. by apply Huniq.
Qed.

Lemma findOne_app_l (P : A → Prop) `{∀ d, Decision (P d)} coll coll' d :
  findOne P coll = Some d → findOne P (coll ++ coll') = Some d.
Proof.
  unfold findOne. rewrite filter_app.
  by destruct (filter P coll); [|intros [= ->]].
Qed.

Lemma findOne_app_r (P : A → Prop) `{∀ d, Decision (P d)} coll coll' :
  findOne P coll = None → findOne P (coll ++ coll') = findOne P coll'.
Proof.
  unfold findOne. rewrite filter_app, head_None. by intros ->.
Qed.

Lemma findOne_singleton (P : A → Prop) `{∀ d, Decision (P d)} d :
  P d → findOne P [d] = Some d.
Proof. intros HP. unfold findOne. by rewrite filter_cons_True. Qed.

Lemma filter_all (P : A → Prop) `{∀ d, Decision (P d)} coll :
  (∀ d, d ∈ coll → P d) → filter P coll = coll.
Proof.
  induction coll as [|d coll IH]; intros Hall; [done|].
  rewrite filter_cons_True by (apply Hall; left).
  f_equal. apply IH. intros d' Hd'. apply Hall. by right.
Qed.

Lemma filter_ext_in (P Q : A → Prop) `{∀ d, Decision (P d)}
    `{∀ d, Decision (Q d)} coll :
  (∀ d, d ∈ coll → P d ↔ Q d) → filter P coll = filter Q coll.
Proof.
  induction coll as [|d coll IH]; intros Hall; [done|].
  rewrite !filter_cons.
  rewrite IH by (intros d' Hd'; apply Hall; by right).
  destruct (decide (P d)) as [HP|HP], (decide (Q d)) as [HQ|HQ]; try done;
    exfalso; apply (Hall d) in HP || apply (Hall d) in HQ; done || by left.
Qed.

Lemma filter_none (P : A → Prop) `{∀ d, Decision (P d)} coll :
  (∀ d, d ∈ coll → ¬ P d) → filter P coll = [].
Proof.
  induction coll as [|d coll IH]; intros Hall; [done|].
  rewrite filter_cons_False by (apply Hall; left).
  apply IH. intros d' Hd'. apply Hall. by right.
Qed.

(** A filter that no document meets deletes nothing. *)
Lemma deleteOne_none (P : A → Prop) `{∀ d, Decision (P d)} coll :
  (∀ d, ¬ P d) → deleteOne P coll = coll.
Proof.
  intros HP. induction coll as [|d coll IH]; simpl; [done|].
  rewrite decide_False by apply HP. by rewrite IH.
Qed.

Lemma NoDup_key_inj (key : A → Z) coll d d' :
  NoDup (key <$> coll) → d ∈ coll → d' ∈ coll → key d = key d' → d = d'.
Proof.
  induction coll as [|e coll IH]; intros Hnd Hd Hd' Hk.
  - by apply elem_of_nil in Hd.
  - rewrite fmap_cons in Hnd. apply NoDup_cons in Hnd as [He Hnd].
    apply elem_of_cons in Hd as [->|Hd], Hd' as [->|Hd']; [done| | |by apply IH].
    + exfalso. apply He. rewrite Hk. by apply list_elem_of_fmap_2.
    + exfalso. apply He. rewrite <- Hk. by apply list_elem_of_fmap_2.
Qed.

Lemma insertOne_Some (key : A → Z) d coll coll' :
  insertOne key d coll = Some coll' ↔
  (key d ∉ key <$> coll) ∧ coll' = coll ++ [d].
Proof.
  unfold insertOne. case_decide; split.
  - done.
  - by intros [? _].
  - by intros [= <-].
  - by intros [_ ->].
Qed.

End collection_facts.

(** ** JavaScript sets *)

Section js_set_facts.
Context {A : Type} `{EqDecision A}.
Implicit Types (x y : A) (s l : list A).

Lemma elem_of_Set_add x y s : x ∈ Set_add y s ↔ x = y ∨ x ∈ s.
Proof.
  unfold Set_add. case_decide.
  - split; [by right|by intros [->|?]].
  - rewrite elem_of_app, list_elem_of_singleton. tauto.
Qed.

Lemma NoDup_Set_add y s : NoDup s → NoDup (Set_add y s).
Proof.
  intros Hs. unfold Set_add. case_decide; [done|].
  apply NoDup_app. split_and!; [done| |apply NoDup_singleton].
  intros z Hz ->%list_elem_of_singleton. done.
Qed.

Lemma Set_add_elem y s : y ∈ s → Set_add y s = s.
Proof. intros Hy. unfold Set_add. by rewrite decide_True. Qed.

Lemma elem_of_Set_from x s l : x ∈ Set_from s l ↔ x ∈ s ∨ x ∈ l.
Proof.
  unfold Set_from. revert s. induction l as [|y l IH]; intros s; simpl.
  - rewrite elem_of_nil. tauto.
  - rewrite IH, elem_of_Set_add, elem_of_cons. tauto.
Qed.

Lemma NoDup_Set_from s l : NoDup s → NoDup (Set_from s l).
Proof.
  unfold Set_from. revert s. induction l as [|y l IH]; intros s Hs; simpl.
  - done.
  - apply IH. by apply NoDup_Set_add.
Qed.

Lemma elem_of_new_Set x l : x ∈ new_Set l ↔ x ∈ l.
Proof. unfold new_Set. rewrite elem_of_Set_from, elem_of_nil. tauto. Qed.

Lemma NoDup_new_Set l : NoDup (new_Set l).
Proof. apply NoDup_Set_from, NoDup_nil_2. Qed.

(** The elements of [l] that a set does not hold yet are added at its
    end, in their order. *)
Lemma Set_from_NoDup s l :
  NoDup l → Set_from s l = s ++ filter (λ x, x ∉ s) l.
Proof.
  unfold Set_from. revert s. induction l as [|y l IH]; intros s Hl; simpl.
  { by rewrite filter_nil, app_nil_r. }
  apply NoDup_cons in Hl as [Hy Hl]. rewrite IH by done.
  unfold Set_add. destruct (decide (y ∈ s)) as [Hys|Hys].
  - by rewrite filter_cons_False by tauto.
  - rewrite filter_cons_True by done. rewrite <- app_assoc. simpl.
    do 2 f_equal. apply filter_ext_in. intros x Hx.
    rewrite elem_of_app, list_elem_of_singleton.
    split; [tauto|]. intros Hxs [?| ->]; done.
Qed.

Lemma new_Set_id l : NoDup l → new_Set l = l.
Proof.
  intros Hl. unfold new_Set. rewrite Set_from_NoDup by done. simpl.
  apply filter_all. intros x _. apply not_elem_of_nil.
Qed.

Lemma Set_from_app s l1 l2 :
  Set_from s (l1 ++ l2) = Set_from (Set_from s l1) l2.
Proof. unfold Set_from. apply foldl_app. Qed.

(** Merging a list with itself adds nothing to it. *)
Lemma new_Set_twice l : NoDup l → new_Set (l ++ l) = l.
Proof.
  intros Hl. unfold new_Set. rewrite Set_from_app.
  fold (new_Set l). rewrite new_Set_id by done.
  rewrite Set_from_NoDup by done.
  rewrite filter_none; [by rewrite app_nil_r|]. intros x Hx. tauto.
Qed.
End js_set_facts.

(** ** Sums of [Number]s *)

Lemma double_round_safe z : Z.abs z ≤ 2 ^ 53 → double_round z = z.
Proof.
  intros Hz. unfold double_round. case_decide as Hlt; [done|].
  assert (Z.abs z = 2 ^ 53) as Habs by lia.
  destruct (Z.abs_eq_or_opp z) as [E|E]; rewrite E in Habs.
  - by subst z.
  - assert (z = - 2 ^ 53) as -> by lia. done.
Qed.

Lemma Number_add_safe i : safe_id i → Number_add i 1 = i + 1.
Proof.
  unfold safe_id, Number_add. intros Hi. apply double_round_safe. lia.
Qed.

(** ** [unionSets] on the rows *)

Lemma store_eq db cs ps :
  contacts db = cs → parents db = ps → db = {| contacts := cs; parents := ps |}.
Proof. destruct db. simpl. by intros -> ->. Qed.

Lemma unionSets_contacts a b db : contacts (unionSets a b db) = contacts db.
Proof. unfold unionSets. by repeat case_match. Qed.

Lemma unionSets_not_found a b db :
  findOne (λ p, parId p = a) (parents db) = None ∨
  findOne (λ p, parId p = b) (parents db) = None →
  unionSets a b db = db.
Proof. unfold unionSets. intros [-> | ->]; [done|]. by case_match. Qed.

Lemma unionSets_comm a b db : unionSets a b db = unionSets b a db.
Proof.
  unfold unionSets.
  destruct (findOne (λ p, parId p = a) (parents db)) as [pa|] eqn:Ea,
           (findOne (λ p, parId p = b) (parents db)) as [pb|] eqn:Eb;
    try done.
  destruct (decide (a = b)) as [->|Hab].
  { by simplify_eq. }
  rewrite (Z.min_comm b a).
  destruct (Z.min_spec a b) as [[? ->] | [? ->]];
    rewrite ?decide_True by done; rewrite ?decide_False by done;
    rewrite ?decide_True by done; done.
Qed.

Lemma is_root_findOne db r :
  is_root db r ↔ is_Some (findOne (λ p, parId p = r) (parents db)).
Proof.
  split.
  - intros (p & Hp & Hr). by eapply findOne_is_Some.
  - intros [p [Hp Hr]%findOne_Some]. by exists p.
Qed.

(** The rows after a union that has found both roots: every row is
    still there, under the smaller root when it had one of the two, and
    the row that was read for the smaller root has the merged members. *)
Lemma unionSets_rows a b db pa pb :
  a ≤ b →
  findOne (λ p, parId p = a) (parents db) = Some pa →
  findOne (λ p, parId p = b) (parents db) = Some pb →
  parents (unionSets a b db) =
  union_row a b pa (new_Set (childIds pa ++ childIds pb)) <$> parents db.
Proof.
  intros Hab Ea Eb. unfold unionSets. rewrite Ea, Eb. cbv zeta.
  rewrite Z.min_l by done. rewrite !decide_True by done. cbn [parents].
  rewrite deleteOne_none by done.
  unfold save_childIds, updateMany. rewrite <- list_fmap_compose.
  apply list_fmap_ext. intros _ p _. unfold union_row, compose. simpl.
  rewrite Z.min_l by done.
  destruct (decide (parId p = b)) as [Hb|Hb]; simpl.
  - rewrite (decide_True (P := parId p = a ∨ parId p = b)) by auto.
    by case_decide.
  - destruct (decide (parId p = a)) as [Ha|Ha].
    + rewrite (decide_True (P := parId p = a ∨ parId p = b)) by auto.
      case_decide; by rewrite <- ?Ha; destruct p.
    + rewrite (decide_False (P := parId p = a ∨ parId p = b)) by tauto.
      case_decide; by destruct p.
Qed.

Lemma union_row_comm a b np merged p :
  union_row a b np merged p = union_row b a np merged p.
Proof.
  unfold union_row. rewrite (Z.min_comm b a). f_equal.
  destruct (decide (parId p = a ∨ parId p = b)),
           (decide (parId p = b ∨ parId p = a)); tauto || done.
Qed.

(** The same, whatever the order of the two roots. *)
Lemma unionSets_found a b db :
  is_root db a → is_root db b →
  ∃ newParent oldParent,
    findOne (λ p, parId p = Z.min a b) (parents db) = Some newParent ∧
    findOne (λ p, parId p = Z.max a b) (parents db) = Some oldParent ∧
    unionSets a b db =
    {| contacts := contacts db;
       parents :=
         union_row a b newParent
           (new_Set (childIds newParent ++ childIds oldParent)) <$>
         parents db |}.
Proof.
  intros [pa Ea]%is_root_findOne [pb Eb]%is_root_findOne.
  destruct (Z.le_ge_cases a b) as [Hab|Hab].
  - rewrite Z.min_l, Z.max_r by done. exists pa, pb. split_and!; [done..|].
    apply store_eq; [apply unionSets_contacts|by apply unionSets_rows].
  - rewrite Z.min_r, Z.max_l by lia. exists pb, pa. split_and!; [done..|].
    rewrite unionSets_comm.
    apply store_eq; [apply unionSets_contacts|].
    rewrite (unionSets_rows b a db pb pa) by (done || lia).
    apply list_fmap_ext. intros _ p _. apply union_row_comm.
Qed.

(** No row is added or removed by [unionSets], and none changes its
    [_id]. *)
Lemma unionSets_keys a b db :
  parent_id <$> parents (unionSets a b db) = parent_id <$> parents db.
Proof.
  destruct (decide (is_root db a)) as [Ha|Ha];
    [destruct (decide (is_root db b)) as [Hb|Hb]|].
  - destruct (unionSets_found a b db Ha Hb) as (np & op & _ & _ & ->).
    simpl. rewrite <- list_fmap_compose. by apply list_fmap_ext.
  - rewrite unionSets_not_found; [done|]. right.
    apply eq_None_not_Some. by rewrite <- is_root_findOne.
  - rewrite unionSets_not_found; [done|]. left.
    apply eq_None_not_Some. by rewrite <- is_root_findOne.
Qed.

(** The roots after a union that has found both roots. *)
Lemma unionSets_has_root a b db x r :
  is_root db a → is_root db b →
  has_root (unionSets a b db) x r ↔
  ∃ r0, has_root db x r0 ∧
        r = if decide (r0 = a ∨ r0 = b) then Z.min a b else r0.
Proof.
  intros Ha Hb.
  destruct (unionSets_found a b db Ha Hb) as (np & op & _ & _ & ->).
  unfold has_root. simpl. split.
  - intros (p' & (p & -> & Hp)%list_elem_of_fmap & Hx & Hr). simpl in *.
    exists (parId p). split; [by exists p|done].
  - intros (r0 & (p & Hp & Hx & <-) & ->).
    exists (union_row a b np (new_Set (childIds np ++ childIds op)) p).
    split_and!; [by apply list_elem_of_fmap_2|done..].
Qed.

Lemma unionSets_merged_roots a b db :
  is_root db a → is_root db b →
  merged_roots db [a; b] (Z.min a b) (unionSets a b db).
Proof.
  intros Ha Hb x r. rewrite unionSets_has_root by done.
  apply exist_proper. intros r0.
  destruct (decide (r0 = a ∨ r0 = b)) as [H|H];
    [rewrite decide_True|rewrite decide_False]; try done.
  - rewrite !elem_of_cons. tauto.
  - rewrite !elem_of_cons, elem_of_nil. tauto.
Qed.

(** After a union of two different roots no row has the greater one. *)
Lemma unionSets_old_root_gone a b db :
  a ≠ b → is_root db a → is_root db b →
  ¬ is_root (unionSets a b db) (Z.max a b).
Proof.
  intros Hab Ha Hb (p' & Hp' & Hr).
  destruct (unionSets_found a b db Ha Hb) as (np & op & _ & _ & Heq).
  rewrite Heq in Hp'. simpl in Hp'.
  apply list_elem_of_fmap in Hp' as (p & -> & Hp). simpl in Hr.
  case_decide; lia.
Qed.

(** A union of the same two roots done a second time changes nothing. *)
Lemma unionSets_idem a b db :
  a ≠ b → unionSets a b (unionSets a b db) = unionSets a b db.
Proof.
  intros Hab.
  destruct (decide (is_root db a)) as [Ha|Ha]; last first.
  { rewrite !(unionSets_not_found a b db); try done; left;
      apply eq_None_not_Some; by rewrite <- is_root_findOne. }
  destruct (decide (is_root db b)) as [Hb|Hb]; last first.
  { rewrite !(unionSets_not_found a b db); try done; right;
      apply eq_None_not_Some; by rewrite <- is_root_findOne. }
  pose proof (unionSets_old_root_gone a b db Hab Ha Hb) as Hgone.
  apply unionSets_not_found.
  destruct (Z.max_spec a b) as [[_ Hmax]|[_ Hmax]]; rewrite Hmax in Hgone;
    [right|left]; apply eq_None_not_Some; by rewrite <- is_root_findOne.
Qed.

(** ** The invariant of the two collections *)

Lemma Inv_NoDup_keys db : Inv db → NoDup (parent_id <$> parents db).
Proof. intros HI. rewrite (inv_keys _ HI). apply (inv_contacts _ HI). Qed.

Lemma has_root_unique db x r r' :
  Inv db → has_root db x r → has_root db x r' → r = r'.
Proof.
  intros HI (p & Hp & Hx & <-) (p' & Hp' & Hx' & <-).
  f_equal. eapply NoDup_key_inj; [by apply Inv_NoDup_keys|done..|congruence].
Qed.

Lemma has_root_contact db x r :
  Inv db → has_root db x r → x ∈ contact_id <$> contacts db.
Proof.
  intros HI (p & Hp & <- & _). rewrite <- (inv_keys _ HI).
  by apply list_elem_of_fmap_2.
Qed.

Lemma contact_has_root db x :
  Inv db → x ∈ contact_id <$> contacts db → ∃ r, has_root db x r.
Proof.
  intros HI. rewrite <- (inv_keys _ HI).
  intros (p & -> & Hp)%list_elem_of_fmap. exists (parId p). by exists p.
Qed.

(** Under the invariant the members under a root and the rows of that
    root are the same ids. *)
Lemma member_of_has_root db r x :
  Inv db → member_of db r x ↔ has_root db x r.
Proof.
  intros HI. split.
  - intros (p & Hp & <- & Hx). by apply (inv_members _ HI).
  - intros (p & Hp & <- & <-). exists p.
    split_and!; [done..|by apply (inv_self _ HI)].
Qed.

Lemma is_root_has_root db r : Inv db → is_root db r ↔ has_root db r r.
Proof.
  intros HI. split.
  - intros (p & Hp & <-). by apply (inv_root _ HI).
  - intros (p & Hp & _ & Hr). by exists p.
Qed.

(** The row that holds an id has the root of the row of that id. *)
Lemma find_root_has_root db x r :
  Inv db → find_root x db = Some r → has_root db x r.
Proof.
  intros HI. unfold find_root.
  destruct (findOne _ (parents db)) as [p|] eqn:E; [|done].
  intros [= <-]. apply findOne_Some in E as [Hp Hx].
  by apply (inv_members _ HI).
Qed.

Lemma has_root_find_root db x r :
  Inv db → has_root db x r → find_root x db = Some r.
Proof.
  intros HI Hx. pose proof Hx as (p & Hp & <- & <-). unfold find_root.
  destruct (findOne_is_Some (λ q, parent_id p ∈ childIds q) (parents db) p)
    as [q Hq]; [done|by apply (inv_self _ HI)|].
  rewrite Hq. simpl. f_equal.
  apply findOne_Some in Hq as [Hq Hin].
  eapply has_root_unique; [done|by apply (inv_members _ HI q)|done].
Qed.

Lemma Inv_empty : Inv empty_store.
Proof.
  split; simpl; try (by intros ? ?%elem_of_nil).
  - apply NoDup_nil_2.
  - done.
  - by intros ?? ?%elem_of_nil.
Qed.

Lemma unionSets_Inv a b db : Inv db → Inv (unionSets a b db).
Proof.
  intros HI.
  destruct (decide (is_root db a)) as [Ha|Ha]; last first.
  { rewrite unionSets_not_found; [done|]. left.
    apply eq_None_not_Some. by rewrite <- is_root_findOne. }
  destruct (decide (is_root db b)) as [Hb|Hb]; last first.
  { rewrite unionSets_not_found; [done|]. right.
    apply eq_None_not_Some. by rewrite <- is_root_findOne. }
  assert (∀ x r0, has_root db x r0 →
            has_root (unionSets a b db) x
              (if decide (r0 = a ∨ r0 = b) then Z.min a b else r0)) as Hup.
  { intros x r0 Hx. apply unionSets_has_root; [done..|]. by exists r0. }
  pose proof (unionSets_keys a b db) as Hkeys.
  pose proof (unionSets_contacts a b db) as Hcs.
  destruct (unionSets_found a b db Ha Hb)
    as (np & op & [Hnp Hnpr]%findOne_Some & [Hop Hopr]%findOne_Some & Heq).
  set (merged := new_Set (childIds np ++ childIds op)) in *.
  assert (∀ p', p' ∈ parents (unionSets a b db) →
            ∃ p, p ∈ parents db ∧ p' = union_row a b np merged p) as Hmap.
  { rewrite Heq. simpl. intros p' (p & -> & Hp)%list_elem_of_fmap. eauto. }
  assert (parId np = a ∨ parId np = b) as Hnpab by lia.
  assert (parId op = a ∨ parId op = b) as Hopab by lia.
  assert (∀ p, p ∈ parents db → parent_id p = parent_id np → p = np) as Hsame.
  { intros p Hp Hid.
    eapply NoDup_key_inj; [by apply Inv_NoDup_keys|done..]. }
  split.
  - rewrite Hcs. apply (inv_contacts _ HI).
  - rewrite Hkeys, Hcs. apply (inv_keys _ HI).
  - intros p' (p & Hp & ->)%Hmap. simpl.
    case_decide; [apply NoDup_new_Set|by apply (inv_children _ HI)].
  - intros p' (p & Hp & ->)%Hmap. simpl.
    case_decide as Hid; [|by apply (inv_self _ HI)].
    rewrite (Hsame p Hp Hid).
    apply elem_of_new_Set, elem_of_app. left. by apply (inv_self _ HI).
  - intros p' x (p & Hp & ->)%Hmap. cbn [childIds parId union_row].
    intros Hx. destruct (decide (parent_id p = parent_id np)) as [Hid|Hid].
    + rewrite (Hsame p Hp Hid). rewrite decide_True by done.
      apply elem_of_new_Set, elem_of_app in Hx as [Hx|Hx].
      * specialize (Hup x (parId np) (inv_members _ HI np x Hnp Hx)).
        by rewrite decide_True in Hup.
      * specialize (Hup x (parId op) (inv_members _ HI op x Hop Hx)).
        by rewrite decide_True in Hup.
    + exact (Hup x (parId p) (inv_members _ HI p x Hp Hx)).
  - intros p' (p & Hp & ->)%Hmap. simpl.
    pose proof (inv_least _ HI p Hp). case_decide; lia.
  - intros p' (p & Hp & ->)%Hmap. cbn [parId union_row].
    destruct (decide (parId p = a ∨ parId p = b)) as [Hab|Hab].
    + specialize (Hup _ _ (inv_root _ HI np Hnp)).
      rewrite decide_True in Hup by done. by rewrite Hnpr in Hup.
    + specialize (Hup _ _ (inv_root _ HI p Hp)).
      by rewrite decide_False in Hup.
Qed.

(** ** The invariant under the handlers *)

Lemma has_root_saved_store db c x r :
  has_root db x r → has_root (saved_store c db) x r.
Proof.
  intros (p & Hp & Hx & Hr). exists p. split_and!; [|done..].
  simpl. apply elem_of_app. by left.
Qed.

Lemma has_root_saved_store_new db c :
  has_root (saved_store c db) (contact_id c) (contact_id c).
Proof.
  exists (singleton_parent (contact_id c)). split_and!; [|done..].
  simpl. apply elem_of_app. right. by apply list_elem_of_singleton.
Qed.

Lemma Inv_fresh_parent db i :
  Inv db → i ∉ contact_id <$> contacts db → i ∉ parent_id <$> parents db.
Proof. intros HI. by rewrite (inv_keys _ HI). Qed.

Lemma Inv_saved_store db c :
  Inv db → contact_id c ∉ contact_id <$> contacts db → Inv (saved_store c db).
Proof.
  intros HI Hfresh.
  assert (∀ p, p ∈ parents (saved_store c db) →
            p ∈ parents db ∨ p = singleton_parent (contact_id c)) as Hrows.
  { intros p. simpl. rewrite elem_of_app, list_elem_of_singleton. tauto. }
  split.
  - simpl. rewrite fmap_app. apply NoDup_app.
    split_and!; [apply (inv_contacts _ HI)| |apply NoDup_singleton].
    intros x Hx ->%list_elem_of_singleton. done.
  - simpl. by rewrite !fmap_app, (inv_keys _ HI).
  - intros p [Hp| ->]%Hrows; [by apply (inv_children _ HI)|].
    apply NoDup_singleton.
  - intros p [Hp| ->]%Hrows; [by apply (inv_self _ HI)|].
    by apply list_elem_of_singleton.
  - intros p x [Hp| ->]%Hrows Hx.
    + by apply has_root_saved_store, (inv_members _ HI).
    + apply list_elem_of_singleton in Hx as ->.
      apply has_root_saved_store_new.
  - intros p [Hp| ->]%Hrows; [by apply (inv_least _ HI)|done].
  - intros p [Hp| ->]%Hrows.
    + by apply has_root_saved_store, (inv_root _ HI).
    + apply has_root_saved_store_new.
Qed.

Lemma union_all_Inv rs base db : Inv db → Inv (union_all rs base db).2.
Proof.
  revert base db. induction rs as [|r rs IH]; intros base db HI; simpl; [done|].
  case_decide; apply IH; [by apply unionSets_Inv|done].
Qed.

Lemma union_all_contacts rs base db :
  contacts (union_all rs base db).2 = contacts db.
Proof.
  revert base db. induction rs as [|r rs IH]; intros base db; simpl; [done|].
  case_decide; rewrite IH; [apply unionSets_contacts|done].
Qed.

Lemma union_linked_Inv body newRoot db :
  Inv db → Inv (union_linked body newRoot db).
Proof.
  intros HI. unfold union_linked.
  repeat case_match; try done. by apply unionSets_Inv.
Qed.

Lemma union_linked_contacts body newRoot db :
  contacts (union_linked body newRoot db) = contacts db.
Proof.
  unfold union_linked. repeat case_match; try done. apply unionSets_contacts.
Qed.

Lemma union_roots_Inv newRoot roots db :
  Inv db → Inv (union_roots newRoot roots db).
Proof.
  unfold union_roots. revert db.
  induction roots as [|r roots IH]; intros db HI; simpl; [done|].
  apply IH. case_decide; [by apply unionSets_Inv|done].
Qed.

Lemma union_roots_contacts newRoot roots db :
  contacts (union_roots newRoot roots db) = contacts db.
Proof.
  unfold union_roots. revert db.
  induction roots as [|r roots IH]; intros db; simpl; [done|].
  rewrite IH. case_decide; [apply unionSets_contacts|done].
Qed.

Lemma new_contact_id now body c :
  new_contact now body = Some c → contact_id c = body_id body.
Proof. unfold new_contact. repeat case_match; by intros [= <-]. Qed.

(** The path of [/add-contact] that reaches the unions. *)
Lemma addContact_success now body db c :
  Inv db → ¬ linkedId_required body → ¬ trim_throws body →
  new_contact now body = Some c →
  body_id body ∉ contact_id <$> contacts db →
  addContact now body db =
  (RedirectIndex,
   union_roots (body_id body)
     (roots_of (contact_id <$> filter (matching body) (contacts db ++ [c]))
        (parents (saved_store c db)))
     (union_linked body (body_id body) (saved_store c db))).
Proof.
  intros HI Hreq Hthrow Hc Hfresh. unfold addContact.
  rewrite !decide_False by done. rewrite Hc.
  pose proof (new_contact_id _ _ _ Hc) as Hid.
  unfold insertOne. rewrite Hid, decide_False by done.
  rewrite decide_False by (by apply Inv_fresh_parent).
  unfold saved_store. by rewrite Hid.
Qed.

(** Every other path leaves the store as it was. *)
Lemma addContact_failure now body db :
  Inv db →
  linkedId_required body ∨ trim_throws body ∨ new_contact now body = None ∨
  body_id body ∈ contact_id <$> contacts db →
  (addContact now body db).1 ≠ RedirectIndex ∧ (addContact now body db).2 = db.
Proof.
  intros HI Hfail. unfold addContact.
  case_decide; [done|]. case_decide; [done|].
  destruct (new_contact now body) as [c|] eqn:Ec; [|done].
  destruct Hfail as [?|[?|[?|Hin]]]; try done.
  unfold insertOne.
  by rewrite (new_contact_id _ _ _ Ec), decide_True by done.
Qed.

Lemma addContact_Inv now body db : Inv db → Inv (addContact now body db).2.
Proof.
  intros HI.
  destruct (decide (linkedId_required body)) as [Hreq|Hreq].
  { destruct (addContact_failure now body db HI) as [_ ->]; [auto|done]. }
  destruct (decide (trim_throws body)) as [Hthrow|Hthrow].
  { destruct (addContact_failure now body db HI) as [_ ->]; [auto|done]. }
  destruct (new_contact now body) as [c|] eqn:Ec; last first.
  { destruct (addContact_failure now body db HI) as [_ ->]; [auto|done]. }
  destruct (decide (body_id body ∈ contact_id <$> contacts db)) as [Hin|Hin].
  { destruct (addContact_failure now body db HI) as [_ ->]; [auto|done]. }
  rewrite (addContact_success now body db c) by done. simpl.
  apply union_roots_Inv, union_linked_Inv, Inv_saved_store; [done|].
  by rewrite (new_contact_id _ _ _ Ec).
Qed.

Lemma foldl_max_ge l : ∀ x d, d ∈ x :: l → d ≤ foldl Z.max x l.
Proof.
  induction l as [|y l IH]; intros x d Hd; simpl.
  - apply list_elem_of_singleton in Hd as ->. lia.
  - apply elem_of_cons in Hd as [->|Hd].
    + etrans; [|apply IH; left]. lia.
    + apply elem_of_cons in Hd as [->|Hd].
      * etrans; [|apply IH; left]. lia.
      * apply IH. by right.
Qed.

Lemma foldl_max_elem l : ∀ x, foldl Z.max x l ∈ x :: l.
Proof.
  induction l as [|y l IH]; intros x; simpl; [left|].
  pose proof (IH (Z.max x y)) as Hm. apply elem_of_cons in Hm as [Hm|Hm].
  - rewrite Hm. destruct (Z.max_spec x y) as [[_ ->]|[_ ->]];
      [right; left|left].
  - by do 2 right.
Qed.

Lemma max_id_fresh cs m : max_id cs = Some m → ∀ c, c ∈ cs → contact_id c ≤ m.
Proof.
  unfold max_id. destruct (contact_id <$> cs) as [|x l] eqn:E; [done|].
  intros [= <-] c Hc. apply foldl_max_ge. rewrite <- E.
  by apply list_elem_of_fmap_2.
Qed.

Lemma max_id_elem cs m : max_id cs = Some m → m ∈ contact_id <$> cs.
Proof.
  unfold max_id. destruct (contact_id <$> cs) as [|x l] eqn:E; [done|].
  intros [= <-]. apply foldl_max_elem.
Qed.

Lemma max_id_None cs : max_id cs = None → cs = [].
Proof. unfold max_id. by destruct cs. Qed.

(** The two answers of the no-match branch: the id is in use and the
    save is refused, or the contact and its row are saved. *)
Lemma identify_new_spec now q db :
  Inv db →
  identify_new now q db =
  if decide (next_id db ∈ contact_id <$> contacts db) then (Status500, db)
  else (Json {| primaryContatctId := None;
                primaryContactId := Num (next_id db);
                emails := text_list (q_email q);
                phoneNumbers := text_list (q_phoneNumber q);
                secondaryContactIds := [] |},
        saved_store (created_contact now q db) db).
Proof.
  intros HI. unfold identify_new, insertOne. cbn [contact_id].
  case_decide as Hin; [done|].
  by rewrite decide_False by (by apply Inv_fresh_parent).
Qed.

Lemma identify_Inv now q db : Inv db → Inv (identify now q db).2.
Proof.
  intros HI. unfold identify. case_decide; [|done].
  destruct (filter (matches q) (contacts db)) as [|c0 cs0].
  - rewrite identify_new_spec by done. case_decide; [done|].
    simpl. by apply Inv_saved_store.
  - unfold identify_merge. destruct (Math_min _) as [base|]; [|done].
    match goal with
    | |- context [union_all ?rs base db] =>
        pose proof (union_all_Inv rs base db HI) as HI';
        destruct (union_all rs base db) as [baseRoot db']
    end.
    done.
Qed.

Lemma step_Inv op db : Inv db → Inv (step op db).
Proof.
  intros HI. destruct op as [now body|now q|a b|]; simpl.
  - by apply addContact_Inv.
  - by apply identify_Inv.
  - by apply unionSets_Inv.
  - done.
Qed.

Lemma run_Inv ops db : Inv db → Inv (run ops db).
Proof.
  unfold run. revert db.
  induction ops as [|op ops IH]; intros db HI; simpl; [done|].
  by apply IH, step_Inv.
Qed.

Lemma reachable_Inv db : reachable db → Inv db.
Proof. intros (ops & <-). apply run_Inv, Inv_empty. Qed.

Lemma guarded_reachable_reachable db : guarded_reachable db → reachable db.
Proof. intros (ops & _ & Hrun). by exists ops. Qed.

Lemma guarded_reachable_Inv db : guarded_reachable db → Inv db.
Proof. intros ?. by apply reachable_Inv, guarded_reachable_reachable. Qed.


(** ** The loop of unions of [/identify] *)

Lemma least_proper m l l' : (∀ d, d ∈ l ↔ d ∈ l') → least m l → least m l'.
Proof.
  intros Hl [Hm Hle]. split; [by apply Hl|].
  intros d Hd. by apply Hle, Hl.
Qed.

Lemma least_unique m m' l : least m l → least m' l → m = m'.
Proof. intros [Hm Hle] [Hm' Hle']. apply Z.le_antisymm; auto. Qed.

Lemma Math_min_least l m : Math_min l = Num m ↔ least m l.
Proof.
  destruct l as [|x l]; simpl.
  { split; [done|]. by intros [?%elem_of_nil _]. }
  assert (least (foldl Z.min x l) (x :: l)) as Hfold.
  { revert x. induction l as [|y l IH]; intros x; simpl.
    - split; [left|]. by intros d ->%list_elem_of_singleton.
    - destruct (IH (Z.min x y)) as [Hin Hle]. split.
      + apply elem_of_cons in Hin as [->|Hin]; [|by do 2 right].
        destruct (Z.min_spec x y) as [[_ ->]|[_ ->]]; [left|right; left].
      + intros d Hd.
        assert (foldl Z.min (Z.min x y) l ≤ Z.min x y) by (apply Hle; left).
        apply elem_of_cons in Hd as [->|[->|Hd]%elem_of_cons]; [lia..|].
        apply Hle. by right. }
  split.
  - by intros [= <-].
  - intros [Hm Hle]. destruct Hfold as [Hf Hfle]. f_equal.
    apply Z.le_antisymm; auto.
Qed.

Lemma has_root_is_root db x r : has_root db x r → is_root db r.
Proof. intros (p & Hp & _ & Hr). by exists p. Qed.

Lemma merged_roots_init db0 base : merged_roots db0 [base] base db0.
Proof.
  intros x r. split.
  - intros Hx. exists r. split; [done|].
    case_decide as Hr; [|done]. by apply list_elem_of_singleton in Hr.
  - intros (r0 & Hx & ->).
    case_decide as Hr; [|done]. by apply list_elem_of_singleton in Hr as ->.
Qed.

(** Roots that are merged already, or that are no roots, can be listed
    or not. *)
Lemma merged_roots_proper db0 D D' base db :
  (∀ d, is_root db0 d → (d ∈ D ↔ d ∈ D')) → merged_roots db0 D base db →
  merged_roots db0 D' base db.
Proof.
  intros HD Hv x r. rewrite (Hv x r). apply exist_proper. intros r0.
  split; intros [Hx ->]; (split; [done|]);
    pose proof (HD r0 (has_root_is_root _ _ _ Hx));
    destruct (decide (r0 ∈ D)), (decide (r0 ∈ D')); tauto || done.
Qed.

Lemma merged_roots_is_root db0 D base db r :
  merged_roots db0 D base db →
  is_root db r ↔
  (r = base ∧ ∃ d, d ∈ D ∧ is_root db0 d) ∨ ((r ∉ D) ∧ is_root db0 r).
Proof.
  intros Hv. split.
  - intros (p & Hp & Hr).
    assert (has_root db (parent_id p) r) as Hx by (by exists p).
    apply Hv in Hx as (r0 & Hx & ->). apply has_root_is_root in Hx.
    case_decide; [left|right]; eauto.
  - intros [[-> (d & Hd & p & Hp & Hr)]|[Hr (p & Hp & Hpr)]].
    + apply (has_root_is_root _ (parent_id p)). apply Hv. exists d.
      split; [by exists p|]. by rewrite decide_True.
    + apply (has_root_is_root _ (parent_id p)). apply Hv. exists r.
      split; [by exists p|]. by rewrite decide_False.
Qed.

(** One turn of the loop on a root [r] that is not merged yet. *)
Lemma merged_roots_step db0 D base db r :
  merged_roots db0 D base db → base ∈ D → r ∉ D →
  is_root db0 base → is_root db0 r →
  merged_roots db0 (r :: D) (Z.min base r) (unionSets base r db).
Proof.
  intros Hv Hbase HrD Hb0 Hr0.
  assert (r ≠ base) as Hrb by (by intros ->).
  assert (is_root db base) as Hb.
  { apply (merged_roots_is_root _ _ _ _ _ Hv). left. eauto. }
  assert (is_root db r) as Hr.
  { apply (merged_roots_is_root _ _ _ _ _ Hv). by right. }
  intros x r'. rewrite unionSets_has_root by done. split.
  - intros (r1 & (r0 & Hx & ->)%Hv & ->). exists r0. split; [done|].
    destruct (decide (r0 ∈ D)) as [HD|HD].
    + rewrite (decide_True (P := base = base ∨ base = r)) by auto.
      by rewrite (decide_True (P := r0 ∈ r :: D)) by (by right).
    + destruct (decide (r0 = r)) as [->|Hne].
      * rewrite (decide_True (P := r = base ∨ r = r)) by auto.
        by rewrite (decide_True (P := r ∈ r :: D)) by left.
      * rewrite (decide_False (P := r0 = base ∨ r0 = r))
          by (intros [?|?]; [subst r0|]; done).
        by rewrite (decide_False (P := r0 ∈ r :: D))
          by (by intros [?|?]%elem_of_cons).
  - intros (r0 & Hx & ->).
    exists (if decide (r0 ∈ D) then base else r0).
    split; [apply Hv; by exists r0|].
    destruct (decide (r0 ∈ D)) as [HD|HD].
    + rewrite (decide_True (P := base = base ∨ base = r)) by auto.
      by rewrite (decide_True (P := r0 ∈ r :: D)) by (by right).
    + destruct (decide (r0 = r)) as [->|Hne].
      * rewrite (decide_True (P := r = base ∨ r = r)) by auto.
        by rewrite (decide_True (P := r ∈ r :: D)) by left.
      * rewrite (decide_False (P := r0 = base ∨ r0 = r))
          by (intros [?|?]; [subst r0|]; done).
        by rewrite (decide_False (P := r0 ∈ r :: D))
          by (by intros [?|?]%elem_of_cons).
Qed.

(** The loop over [rs], from a store in which the roots [D] are merged
    under [base].  A root of [rs] that is no root of a row is passed over;
    it must not be smaller than [base], which it would replace. *)
Lemma union_all_merged db0 rs :
  ∀ D base db,
    merged_roots db0 D base db → least base D → is_root db0 base →
    (∀ r, r ∈ rs → is_root db0 r ∨ base ≤ r) →
    least (union_all rs base db).1 (rs ++ D) ∧
    is_root db0 (union_all rs base db).1 ∧
    merged_roots db0 (rs ++ D) (union_all rs base db).1
      (union_all rs base db).2.
Proof.
  induction rs as [|r rs IH]; intros D base db Hv Hleast Hb0 Hrs; simpl.
  { done. }
  assert (∀ d, d ∈ rs ++ r :: D ↔ d ∈ r :: rs ++ D) as Hset.
  { intros d. rewrite !elem_of_cons, !elem_of_app, !elem_of_cons. tauto. }
  assert (∀ base', base' ≤ base →
            ∀ r', r' ∈ rs → is_root db0 r' ∨ base' ≤ r') as Hrs'.
  { intros base' Hle r' Hr'.
    destruct (Hrs r') as [?|?]; [by right|by left|right; lia]. }
  assert (∀ b s, least b (r :: D) → is_root db0 b →
            merged_roots db0 (r :: D) b s → b ≤ base →
            least (union_all rs b s).1 (r :: rs ++ D) ∧
            is_root db0 (union_all rs b s).1 ∧
            merged_roots db0 (r :: rs ++ D) (union_all rs b s).1
              (union_all rs b s).2) as Hnext.
  { intros b s Hl Hb Hm Hle.
    destruct (IH (r :: D) b s Hm Hl Hb (Hrs' b Hle)) as (H1 & H2 & H3).
    split_and!; [by eapply least_proper|done|].
    eapply merged_roots_proper; [|done]. intros d _. apply Hset. }
  destruct (decide (r ∈ D ∨ ¬ is_root db0 r)) as [Hold|Hnew].
  - (* nothing to merge: [r] is merged already, or it is no root *)
    assert (base ≤ r) as Hle.
    { destruct Hold as [HrD|Hnr]; [by apply Hleast|].
      destruct (Hrs r) as [?|?]; [left|done..]. }
    assert (least base (r :: D)) as Hl.
    { destruct Hleast as [HbD Hmin]. split; [by right|].
      intros d [->|Hd]%elem_of_cons; auto. }
    assert (merged_roots db0 (r :: D) base db) as Hm.
    { eapply merged_roots_proper; [|done]. intros d Hd.
      rewrite elem_of_cons. split; [auto|]. intros [->|?]; [|done].
      by destruct Hold. }
    case_decide as Hrb; [|by apply Hnext].
    rewrite Z.min_l by done. rewrite unionSets_not_found; [by apply Hnext|].
    right. apply eq_None_not_Some. rewrite <- is_root_findOne.
    rewrite (merged_roots_is_root _ _ _ _ _ Hv). tauto.
  - assert (r ∉ D) as HrD by tauto.
    assert (is_root db0 r) as Hr0.
    { destruct (decide (is_root db0 r)); tauto. }
    assert (r ≠ base) as Hrb by (intros ->; by apply HrD, Hleast).
    rewrite decide_True by done. apply Hnext.
    + destruct Hleast as [HbD Hmin]. split.
      * rewrite elem_of_cons.
        destruct (Z.min_spec base r) as [[_ ->]|[_ ->]]; auto.
      * intros d [->|Hd%Hmin]%elem_of_cons; lia.
    + by destruct (Z.min_spec base r) as [[_ ->]|[_ ->]].
    + apply merged_roots_step; [done|apply Hleast|done..].
    + lia.
Qed.

(** The loop started on the store itself. *)
Lemma union_all_roots db rs base :
  is_root db base → (∀ r, r ∈ rs → is_root db r ∨ base ≤ r) →
  least (union_all rs base db).1 (base :: rs) ∧
  is_root db (union_all rs base db).1 ∧
  merged_roots db (base :: rs) (union_all rs base db).1
    (union_all rs base db).2.
Proof.
  intros Hb Hrs.
  destruct (union_all_merged db rs [base] base db) as (H1 & H2 & H3).
  - apply merged_roots_init.
  - split; [by apply list_elem_of_singleton|].
    by intros d ->%list_elem_of_singleton.
  - done.
  - done.
  - assert (∀ d, d ∈ rs ++ [base] ↔ d ∈ base :: rs) as Hset.
    { intros d. rewrite elem_of_app, elem_of_cons, elem_of_cons, elem_of_nil.
      tauto. }
    split_and!; [by eapply least_proper|done|].
    eapply merged_roots_proper; [|done]. intros d _. apply Hset.
Qed.

(** Under the invariant the members follow the roots. *)
Lemma merged_roots_view db0 D base db :
  Inv db0 → Inv db → merged_roots db0 D base db → merged_view db0 D base db.
Proof.
  intros HI0 HI Hv r x.
  rewrite (member_of_has_root db) by done. rewrite (Hv x r). split.
  - intros (r0 & Hx & ->). case_decide as Hr0.
    + left. split; [done|]. exists r0. split; [done|].
      by apply member_of_has_root.
    + right. split; [done|]. by apply member_of_has_root.
  - intros [[-> (d & Hd & Hx)]|[Hr Hx]];
      apply member_of_has_root in Hx; try done.
    + exists d. split; [done|]. by rewrite decide_True.
    + exists r. split; [done|]. by rewrite decide_False.
Qed.

(** ** The fetch of the members *)

Lemma collect_spec cs idList :
  ∀ seenIds emailSet phoneSet,
    (∀ cid e, cid ∈ seenIds → email_of cs cid = Some e → e ∈ emailSet) →
    (∀ cid t, cid ∈ seenIds → phone_of cs cid = Some t → t ∈ phoneSet) →
    collect idList cs seenIds emailSet phoneSet =
    (Set_from emailSet (omap (email_of cs) idList),
     Set_from phoneSet (omap (phone_of cs) idList)).
Proof.
  induction idList as [|cid rest IH]; intros seen es ts Hes Hts; simpl; [done|].
  case_decide as Hseen.
  - rewrite IH by done. unfold Set_from. f_equal.
    + destruct (email_of cs cid) as [e|] eqn:E; [|done]. simpl.
      by rewrite Set_add_elem by eauto.
    + destruct (phone_of cs cid) as [t|] eqn:E; [|done]. simpl.
      by rewrite Set_add_elem by eauto.
  - unfold email_of, phone_of in *.
    destruct (findById cid cs) as [doc|] eqn:Edoc; simpl.
    + rewrite IH; [unfold Set_from; f_equal|..].
      * destruct (email doc) as [e|] eqn:Ee; by case_decide.
      * destruct (phoneNumber doc) as [t|] eqn:Et; by case_decide.
      * intros cid' e [->|Hin]%elem_of_Set_add He.
        -- rewrite Edoc in He. simpl in He.
           case_decide; [|done]. rewrite He. apply elem_of_Set_add. by left.
        -- apply (Hes cid' e Hin) in He.
           destruct (email doc); [|done].
           case_decide; [|done]. apply elem_of_Set_add. by right.
      * intros cid' t [->|Hin]%elem_of_Set_add Ht.
        -- rewrite Edoc in Ht. simpl in Ht.
           case_decide; [|done]. rewrite Ht. apply elem_of_Set_add. by left.
        -- apply (Hts cid' t Hin) in Ht.
           destruct (phoneNumber doc); [|done].
           case_decide; [|done]. apply elem_of_Set_add. by right.
    + apply IH.
      * intros cid' e [->|Hin]%elem_of_Set_add He; [|by eauto].
        by rewrite Edoc in He.
      * intros cid' t [->|Hin]%elem_of_Set_add Ht; [|by eauto].
        by rewrite Edoc in Ht.
Qed.

Lemma findById_Some cs cid c :
  NoDup (contact_id <$> cs) →
  findById cid cs = Some c ↔ c ∈ cs ∧ contact_id c = cid.
Proof.
  intros Hnd. unfold findById. split.
  - intros Hc. by apply (findOne_Some (λ c, contact_id c = cid)) in Hc.
  - intros [Hc Hid]. apply findOne_unique; [done..|].
    intros c' Hc' Hid'. eapply NoDup_key_inj; [done..|congruence].
Qed.



(** ** The match branch of [/identify] *)

Lemma elem_of_rootsArr_of matched db r :
  r ∈ rootsArr_of matched db ↔
  ∃ p, p ∈ parents db ∧ parId p = r ∧
       ∃ c, c ∈ matched ∧ contact_id c ∈ childIds p.
Proof.
  unfold rootsArr_of. rewrite elem_of_new_Set, list_elem_of_fmap. split.
  - intros (p & -> & [Hex Hp]%list_elem_of_filter). exists p.
    split_and!; [done..|].
    apply Exists_exists in Hex as (m & (c & -> & Hc)%list_elem_of_fmap & Hm).
    eauto.
  - intros (p & Hp & <- & c & Hc & Hm). exists p. split; [done|].
    apply list_elem_of_filter. split; [|done].
    apply Exists_exists. exists (contact_id c). split; [|done].
    by apply list_elem_of_fmap_2.
Qed.

Lemma rootsArr_of_is_root matched db r :
  r ∈ rootsArr_of matched db → is_root db r.
Proof. intros (p & Hp & Hr & _)%elem_of_rootsArr_of. by exists p. Qed.

(** The root of the row of a matched contact is one of [rootsArr]. *)
Lemma matched_root matched db c r :
  Inv db → c ∈ matched → has_root db (contact_id c) r →
  r ∈ rootsArr_of matched db.
Proof.
  intros HI Hc (p & Hp & Hid & Hr). apply elem_of_rootsArr_of.
  exists p. split_and!; [done..|]. exists c. split; [done|].
  rewrite <- Hid. by apply (inv_self _ HI).
Qed.

(** Every root of [rootsArr] is the root of the row of a matched
    contact. *)
Lemma rootsArr_of_matched matched db r :
  Inv db → r ∈ rootsArr_of matched db →
  ∃ c, c ∈ matched ∧ has_root db (contact_id c) r.
Proof.
  intros HI (p & Hp & <- & c & Hc & Hin)%elem_of_rootsArr_of.
  exists c. split; [done|]. by apply (inv_members _ HI).
Qed.

(** The match branch: the loop merges the roots of the matched contacts
    under the least of them, and the summary is read from the store it
    leaves. *)
Lemma identify_merge_spec matched db :
  Inv db → matched ≠ [] → (∀ c, c ∈ matched → c ∈ contacts db) →
  ∃ base db',
    identify_merge matched db = (Json (match_summary base db'), db') ∧
    db' = (union_all (rootsArr_of matched db) base db).2 ∧
    Inv db' ∧ contacts db' = contacts db ∧
    least base (rootsArr_of matched db) ∧
    merged_roots db (rootsArr_of matched db) base db'.
Proof.
  intros HI Hne Hsub.
  destruct matched as [|c0 matched']; [done|].
  set (matched := c0 :: matched') in *.
  assert (c0 ∈ matched) as Hc0 by left.
  destruct (contact_has_root db (contact_id c0) HI) as [r0 Hr0].
  { apply list_elem_of_fmap_2. by apply Hsub. }
  pose proof (matched_root matched db c0 r0 HI Hc0 Hr0) as Hin0.
  unfold identify_merge. fold (rootsArr_of matched db).
  destruct (Math_min (rootsArr_of matched db)) as [base|] eqn:Emin; last first.
  { destruct (rootsArr_of matched db); [by apply elem_of_nil in Hin0|done]. }
  apply Math_min_least in Emin.
  assert (is_root db base) as Hbase
    by (by apply (rootsArr_of_is_root matched), Emin).
  destruct (union_all_roots db (rootsArr_of matched db) base Hbase)
    as (Hleast & _ & Hv).
  { intros r Hr. left. by eapply rootsArr_of_is_root. }
  assert (∀ d, d ∈ base :: rootsArr_of matched db ↔
               d ∈ rootsArr_of matched db) as Hset.
  { intros d. rewrite elem_of_cons. split; [|auto].
    intros [->|?]; [apply Emin|done]. }
  apply (least_proper _ _ _ Hset) in Hleast.
  pose proof (least_unique _ _ _ Hleast Emin) as Hm.
  pose proof (union_all_Inv (rootsArr_of matched db) base db HI) as HI'.
  pose proof (union_all_contacts (rootsArr_of matched db) base db) as Hcs.
  destruct (union_all (rootsArr_of matched db) base db) as [m db'] eqn:Erun.
  simpl in *. subst m. exists base, db'.
  split_and!; [done|by rewrite Erun|done..|].
  eapply merged_roots_proper; [|done]. intros d _. apply Hset.
Qed.

(** The summary, by the row it is read from. *)
Lemma match_summary_spec base db final :
  findOne (λ p, parId p = base) (parents db) = Some final →
  match_summary base db =
  {| primaryContatctId := Some (Num base);
     primaryContactId := Num base;
     emails := new_Set (omap (email_of (contacts db)) (base :: childIds final));
     phoneNumbers :=
       new_Set (omap (phone_of (contacts db)) (base :: childIds final));
     secondaryContactIds := filter (λ cid, cid ≠ base) (childIds final) |}.
Proof.
  intros Hfind. unfold match_summary. rewrite Hfind. cbn [from_option].
  rewrite collect_spec by (by intros ?? ?%elem_of_nil).
  by rewrite filter_cons_False by (by intros []).
Qed.

(** * The claims *)

(** ** Canonical root *)

(** C1.  After the two requests of the scenario of the specification,
    add-contact of 1 and add-contact of 2 linked to 1, the row of 2 is
    still in the collection, under the root 1: its [parId] is not one of
    its [childIds] and is not their minimum, and [canonical_rows] fails.
    [unionSets] has moved the members of the row of 2 into the row of 1,
    and its [deleteOne] has selected no document. *)
Theorem losing_row_persists :
  reachable db_pair ∧
  parents db_pair =
  [{| parent_id := 1; parId := 1; childIds := [1; 2] |};
   {| parent_id := 2; parId := 1; childIds := [2] |}] ∧
  ¬ canonical_rows db_pair.
Proof.
  split_and!; [by exists ops_pair|reflexivity|]. intros Hcan.
  destruct (Hcan {| parent_id := 2; parId := 1; childIds := [2] |})
    as [Hmin _]; [by right; left|]. discriminate Hmin.
Qed.

(** ** Partition *)

(** C2.  After the same two requests contact 2 is a member of two rows,
    its own and the row of 1: the rows are not disjoint, and [partition]
    fails.  Every contact is still a member of some row. *)
Theorem losing_row_shares_members :
  guarded_reachable db_pair ∧
  same_set db_pair 1 2 ∧ same_set db_pair 2 2 ∧
  (∃ p q, p ∈ parents db_pair ∧ q ∈ parents db_pair ∧ p ≠ q ∧
          2 ∈ childIds p ∧ 2 ∈ childIds q) ∧
  ¬ partition db_pair.
Proof.
  split_and!.
  - by_run.
  - by_decide.
  - by_decide.
  - exists {| parent_id := 1; parId := 1; childIds := [1; 2] |},
           {| parent_id := 2; parId := 1; childIds := [2] |}.
    split_and!; [left|right; left|done|right; left|left].
  - intros (_ & _ & Hdis & _).
    specialize (Hdis {| parent_id := 1; parId := 1; childIds := [1; 2] |}
                     {| parent_id := 2; parId := 1; childIds := [2] |} 2).
    discriminate Hdis; [left|right; left|right; left|left].
Qed.

(** ** Frame *)

(** C10. No operation changes or removes a contact document: afterwards
    the collection is what it was, or what it was followed by one new
    document; the list operation returns the collection as it is. *)
Theorem contacts_frame op db :
  (contacts (step op db) = contacts db ∨
   ∃ c, contacts (step op db) = contacts db ++ [c]) ∧
  listContacts db = (contacts db, db).
Proof.
  split; [|done]. destruct op as [now body|now q|a b|]; simpl.
  - unfold addContact. case_decide; [by left|]. case_decide; [by left|].
    destruct (new_contact now body) as [c|]; [|by left].
    destruct (insertOne contact_id c (contacts db)) as [cs|] eqn:Ecs;
      [|by left].
    apply insertOne_Some in Ecs as [_ ->]. right. exists c.
    destruct (insertOne parent_id _ (parents db)); [|done]. simpl.
    by rewrite union_roots_contacts, union_linked_contacts.
  - unfold identify. case_decide; [|by left].
    destruct (filter (matches q) (contacts db)) as [|c0 cs0].
    + unfold identify_new.
      destruct (insertOne contact_id _ (contacts db)) as [cs|] eqn:Ecs;
        [|by left].
      apply insertOne_Some in Ecs as [_ ->]. right. eexists.
      by destruct (insertOne parent_id _ (parents db)).
    + left. unfold identify_merge. destruct (Math_min _) as [base|]; [|done].
      match goal with
      | |- context [union_all ?rs base db] =>
          pose proof (union_all_contacts rs base db) as Hcs;
          destruct (union_all rs base db) as [baseRoot db']
      end.
      done.
  - left. apply unionSets_contacts.
  - by left.
Qed.

(** ** A union that names an id without a row *)

(** C8, as stated, fails: with no row whose root is 7 the call returns,
    and the store it returns is the one it was given. *)
Lemma invalid_state_counterexample : ¬ invalid_state_reported 7 1 db_pair.
Proof.
  intros Hfails. apply Hfails.
  - left. by_decide.
  - by eexists.
Qed.

(** C8, amended.  When one of the two roots has no row, [unionSets]
    returns without an error and without a log, and leaves both
    collections exactly as they were. *)
Theorem unionSets_missing_row rootA rootB db :
  ¬ is_root db rootA ∨ ¬ is_root db rootB → unionSets rootA rootB db = db.
Proof.
  intros Hmiss. apply unionSets_not_found.
  destruct Hmiss as [Hmiss|Hmiss]; [left|right];
    apply eq_None_not_Some; by rewrite <- is_root_findOne.
Qed.

Lemma unionSets_missing_row_witness :
  ¬ is_root db_pair 7 ∧ unionSets 7 1 db_pair = db_pair.
Proof.
  assert (¬ is_root db_pair 7) as H7 by by_decide.
  split; [exact H7|].
  exact (unionSets_missing_row 7 1 db_pair (or_introl H7)).
Defined.

(** ** The two fields of the primary id *)

(** C9.  On a store without contacts, [/identify] with a new email
    answers a summary that has [primaryContactId] and no
    [primaryContatctId]: [dual_primary_fields] fails there, while the
    match branch carries both fields. *)
Theorem new_identity_lacks_legacy_field :
  (identify 20 (by_email "new@x.com") empty_store).1 =
  Json {| primaryContatctId := None;
          primaryContactId := Num 1;
          emails := ["new@x.com"];
          phoneNumbers := [];
          secondaryContactIds := [] |} ∧
  ¬ dual_primary_fields 20 (by_email "new@x.com") empty_store.
Proof.
  split; [reflexivity|].
  intros Hdual. specialize (Hdual _ _ eq_refl). discriminate Hdual.
Qed.

(** Which summaries carry the legacy field: those of the match branch
    carry [primaryContatctId] and [primaryContactId] with one value, those
    of the no-match branch carry [primaryContactId] only. *)
Lemma primary_id_fields now q db s db' :
  identify now q db = (Json s, db') →
  (filter (matches q) (contacts db) ≠ [] →
   primaryContatctId s = Some (primaryContactId s)) ∧
  (filter (matches q) (contacts db) = [] → primaryContatctId s = None).
Proof.
  unfold identify. case_decide; [|done].
  destruct (filter (matches q) (contacts db)) as [|c0 cs0].
  - unfold identify_new.
    destruct (insertOne contact_id _ (contacts db)); [|done].
    destruct (insertOne parent_id _ (parents db)); [|done].
    intros [= <- _]. by split.
  - unfold identify_merge. destruct (Math_min _) as [base|].
    + destruct (union_all _ base db) as [baseRoot db''].
      intros [= <- _]. unfold match_summary.
      destruct (collect _ _ _ _ _) as [es ts]. by split.
    + intros [= <- _]. by split.
Qed.

(** ** Validation of a secondary contact *)

(** C7, as stated, fails: a secondary contact whose [linkedId] names no
    record is accepted and persisted. *)
Lemma secondary_validated_counterexample :
  ¬ secondary_validated 20
      (contact_body 2 (Some "b@x.com") None (Linked 99) secondary) empty_store.
Proof.
  intros Hval. destruct Hval as [Hfail _]; [done| |by apply Hfail].
  intros (l & _ & Hl). by apply elem_of_nil in Hl.
Qed.

Lemma cast_linkedId_Some f lid :
  cast_linkedId f = Some lid ↔
  (f = LinkedMissing ∧ lid = None) ∨
  ∃ n, (f = Linked n ∨ f = LinkedNotText (Some n)) ∧ lid = Some n.
Proof.
  destruct f as [| | |n|[n|]]; simpl; split;
    try (intros [= <-]); try done; try (by left); try (right; by eauto);
    intros [[? ?]|(n' & [?|?] & ?)]; simplify_eq; done.
Qed.

Lemma new_contact_Some now body c :
  new_contact now body = Some c ↔
  ∃ lp lid,
    body_linkPrecedence body = Some lp ∧
    cast_linkedId (body_linkedId body) = Some lid ∧
    c = {| contact_id := body_id body;
           phoneNumber := body_phoneNumber body;
           email := body_email body;
           linkedId := lid;
           linkPrecedence := lp;
           createdAt := now;
           updatedAt := now |}.
Proof.
  unfold new_contact.
  destruct (body_linkPrecedence body) as [lp|];
    [destruct (cast_linkedId (body_linkedId body)) as [lid|]|]; split;
    try (intros [= <-]; by eauto); try done;
    intros (lp' & lid' & ? & ? & ?); by simplify_eq.
Qed.

(** C7, amended.  The request is sent back for its [linkedId] exactly
    when the precedence is secondary and [linkedId] is missing or blank,
    and then nothing is written; whether [linkedId] references an existing
    record is not checked.  A secondary contact whose [linkedId] is not
    text is answered by the error page, and nothing is written either.
    In every other case whose fields the schema accepts and whose id is
    not taken, the request succeeds and the record is persisted, with a
    row of its own that holds its id. *)
Theorem addContact_validation now body db :
  reachable db →
  let required :=
    body_linkPrecedence body = Some secondary ∧
    (body_linkedId body = LinkedMissing ∨ body_linkedId body = LinkedBlank) in
  let not_text :=
    body_linkPrecedence body = Some secondary ∧
    ∃ n, body_linkedId body = LinkedNotText n in
  ((addContact now body db).1 = RedirectLinkedIdRequired ↔ required) ∧
  (required → (addContact now body db).2 = db) ∧
  (not_text → addContact now body db = (RedirectError, db)) ∧
  (¬ required → ¬ not_text →
   ∀ lp lid,
     body_linkPrecedence body = Some lp →
     (body_linkedId body = LinkedMissing ∧ lid = None) ∨
     (∃ n, (body_linkedId body = Linked n ∨
            body_linkedId body = LinkedNotText (Some n)) ∧ lid = Some n) →
     body_id body ∉ contact_id <$> contacts db →
     (addContact now body db).1 = RedirectIndex ∧
     contacts (addContact now body db).2 =
     contacts db ++
       [{| contact_id := body_id body;
           phoneNumber := body_phoneNumber body;
           email := body_email body;
           linkedId := lid;
           linkPrecedence := lp;
           createdAt := now;
           updatedAt := now |}] ∧
     ∃ p, p ∈ parents (addContact now body db).2 ∧
          parent_id p = body_id body ∧ body_id body ∈ childIds p).
Proof.
  intros HI%reachable_Inv required not_text.
  change required with (linkedId_required body).
  change not_text with (trim_throws body). clear required not_text.
  split_and!.
  - unfold addContact. case_decide as Hreq; [done|]. split; [|done].
    repeat case_match; done.
  - intros Hreq. unfold addContact. by rewrite decide_True.
  - intros Hthrow. unfold addContact.
    rewrite decide_False; [by rewrite decide_True|].
    destruct Hthrow as [_ [n Hn]]. intros [_ [?|?]]; congruence.
  - intros Hreq Hthrow lp lid Hlp Hlid%cast_linkedId_Some Hfresh.
    set (c := {| contact_id := body_id body; linkedId := lid |}).
    assert (new_contact now body = Some c) as Hc.
    { apply new_contact_Some. by exists lp, lid. }
    pose proof (addContact_Inv now body db HI) as HI'.
    rewrite (addContact_success now body db c) in * by done. simpl in *.
    split_and!; [done| |].
    + by rewrite union_roots_contacts, union_linked_contacts.
    + assert (body_id body ∈ contact_id <$>
                contacts (union_roots (body_id body)
                  (roots_of (contact_id <$>
                     filter (matching body) (contacts db ++ [c]))
                     (parents db ++ [singleton_parent (body_id body)]))
                  (union_linked body (body_id body) (saved_store c db))))
        as Hin.
      { rewrite union_roots_contacts, union_linked_contacts. simpl.
        rewrite fmap_app, elem_of_app. right. by left. }
      rewrite <- (inv_keys _ HI') in Hin.
      apply list_elem_of_fmap in Hin as (p & Hid & Hp).
      exists p. split_and!; [done..|].
      rewrite Hid. by apply (inv_self _ HI').
Qed.

Lemma addContact_validation_witness :
  reachable db_pair ∧
  (addContact 20 (contact_body 3 None (Some "333") (Linked 99) secondary)
     db_pair).1 = RedirectIndex ∧
  addContact 20
    (contact_body 3 None (Some "333") (LinkedNotText (Some 2)) secondary)
    db_pair = (RedirectError, db_pair).
Proof.
  assert (reachable db_pair) as Hr by (by exists ops_pair).
  split; [exact Hr|]. split.
  - refine (proj1 (proj2 (proj2 (proj2 (addContact_validation 20
              (contact_body 3 None (Some "333") (Linked 99) secondary)
              db_pair Hr))) _ _ secondary (Some 99) eq_refl _ _)).
    + intros [_ [?|?]]; discriminate.
    + intros [_ [? ?]]; discriminate.
    + right. exists 99. split; [by left|done].
    + by_decide.
  - refine (proj1 (proj2 (proj2 (addContact_validation 20
              (contact_body 3 None (Some "333") (LinkedNotText (Some 2))
                 secondary)
              db_pair Hr))) _).
    split; [done|by eexists].
Defined.

(** ** A query that matches nothing *)

(** C6, as stated, fails: when the greatest id is [2 ^ 53] the sum
    [Number(maxDoc._id) + 1] is that id again, the save of the new contact
    is refused, and the request is answered 500 with nothing created. *)
Lemma new_identity_counterexample :
  reachable db_big ∧
  filter (matches (by_email "new@x.com")) (contacts db_big) = [] ∧
  next_id db_big = 9007199254740992 ∧
  identify 20 (by_email "new@x.com") db_big = (Status500, db_big) ∧
  ¬ new_identity_created 20 (by_email "new@x.com") db_big.
Proof.
  split_and!; [by exists ops_big|reflexivity..|].
  intros Hnew. destruct Hnew as (s & c & db' & Heq & _).
  - left. discriminate.
  - reflexivity.
  - discriminate Heq.
Qed.

Lemma text_list_spec s :
  text_list s =
  match s with
  | Some t => if decide (t = EmptyString) then [] else [t]
  | None => []
  end.
Proof.
  destruct s as [t|]; [|done]. unfold text_list. simpl.
  by destruct (decide (t = EmptyString)); [rewrite decide_False by auto|
                                            rewrite decide_True].
Qed.

(** With ids that doubles hold exactly, the next id is greater than all
    of them. *)
Lemma next_id_safe db :
  (∀ c, c ∈ contacts db → safe_id (contact_id c)) →
  (∀ c, c ∈ contacts db → contact_id c < next_id db) ∧
  (contacts db = [] → next_id db = 1) ∧
  (∀ m, max_id (contacts db) = Some m → next_id db = m + 1).
Proof.
  intros Hsafe. unfold next_id.
  destruct (max_id (contacts db)) as [m|] eqn:Em.
  - assert (Number_add m 1 = m + 1) as ->.
    { apply Number_add_safe.
      apply max_id_elem, list_elem_of_fmap in Em as (c & -> & Hc). auto. }
    split_and!.
    + intros c Hc. pose proof (max_id_fresh _ _ Em c Hc). lia.
    + intros Hnil. by rewrite Hnil in Em.
    + by intros ? [= <-].
  - apply max_id_None in Em. rewrite Em. split_and!; [|done..].
    by intros c ?%elem_of_nil.
Qed.

(** C6, amended.  While every id is one that a double holds exactly
    (below [2 ^ 53] in absolute value), a query with no match gets the
    id that follows the greatest one, 1 on an empty collection, which is
    greater than every id; the store gains one primary contact with that
    id and the given fields, and one row [{ _id, parId, childIds: [_id] }]
    for it; the summary has that id as [primaryContactId], the identifiers
    provided, each in its list, and no secondary id. *)
Theorem identify_no_match now q db :
  reachable db →
  (∀ c, c ∈ contacts db → safe_id (contact_id c)) →
  truthy (q_email q) ∨ truthy (q_phoneNumber q) →
  filter (matches q) (contacts db) = [] →
  ∃ newId,
    (∀ c, c ∈ contacts db → contact_id c < newId) ∧
    (contacts db = [] → newId = 1) ∧
    (∀ m, max_id (contacts db) = Some m → newId = m + 1) ∧
    identify now q db =
    (Json {| primaryContatctId := None;
             primaryContactId := Num newId;
             emails :=
               match q_email q with
               | Some e => if decide (e = EmptyString) then [] else [e]
               | None => []
               end;
             phoneNumbers :=
               match q_phoneNumber q with
               | Some t => if decide (t = EmptyString) then [] else [t]
               | None => []
               end;
             secondaryContactIds := [] |},
     {| contacts := contacts db ++
          [{| contact_id := newId;
              phoneNumber := q_phoneNumber q;
              email := q_email q;
              linkedId := None;
              linkPrecedence := primary;
              createdAt := now;
              updatedAt := now |}];
        parents := parents db ++
          [{| parent_id := newId; parId := newId; childIds := [newId] |}] |}).
Proof.
  intros HI%reachable_Inv Hsafe Hq Hnone.
  destruct (next_id_safe db Hsafe) as (Hgt & Hone & Hmax).
  exists (next_id db). split_and!; [done..|].
  unfold identify. rewrite decide_True by done. rewrite Hnone.
  rewrite identify_new_spec by done. rewrite decide_False.
  - by rewrite !text_list_spec.
  - intros (c & Hid & Hc)%list_elem_of_fmap. specialize (Hgt c Hc). lia.
Qed.

Lemma identify_no_match_witness :
  reachable db_pair ∧
  (∀ c, c ∈ contacts db_pair → safe_id (contact_id c)) ∧
  (identify 20 (by_email "new@x.com") db_pair).1 =
  Json {| primaryContatctId := None;
          primaryContactId := Num 3;
          emails := ["new@x.com"];
          phoneNumbers := [];
          secondaryContactIds := [] |}.
Proof.
  assert (reachable db_pair) as Hr by (by exists ops_pair).
  assert (∀ c, c ∈ contacts db_pair → safe_id (contact_id c)) as Hsafe.
  { apply Forall_forall. by_decide. }
  split; [exact Hr|]. split; [exact Hsafe|].
  assert (truthy (q_email (by_email "new@x.com")) ∨
          truthy (q_phoneNumber (by_email "new@x.com"))) as Hq
    by (left; discriminate).
  destruct (identify_no_match 20 (by_email "new@x.com") db_pair Hr Hsafe Hq
              eq_refl) as (newId & _ & _ & Hmax & ->).
  rewrite (Hmax 2 eq_refl). reflexivity.
Defined.

(** ** The union contract *)

(** A union of a root with itself changes nothing. *)
Lemma unionSets_self db r : Inv db → unionSets r r db = db.
Proof.
  intros HI. destruct (decide (is_root db r)) as [Hr|Hr]; last first.
  { apply unionSets_not_found. left.
    apply eq_None_not_Some. by rewrite <- is_root_findOne. }
  destruct (unionSets_found r r db Hr Hr)
    as (np & op & Enp & Eop & ->).
  rewrite Z.min_id in Enp. rewrite Z.max_id in Eop.
  assert (op = np) as -> by congruence.
  apply findOne_Some in Enp as [Hnp Hnpr].
  symmetry. apply store_eq; [done|]. symmetry.
  rewrite <- (list_fmap_id (parents db)) at 2.
  apply list_fmap_ext. intros i p Hp%list_elem_of_lookup_2.
  unfold union_row. rewrite Z.min_id. destruct p as [pid ppar pch]. simpl.
  f_equal.
  - case_decide; [|done]. by destruct_or!.
  - case_decide as Hid; [|done]. simpl in Hid.
    assert ({| parent_id := pid; parId := ppar; childIds := pch |} = np)
      as <-.
    { eapply NoDup_key_inj; [by apply Inv_NoDup_keys|done..]. }
    simpl. apply new_Set_twice. by apply (inv_children _ HI _ Hp).
Qed.

(** C3, as stated, fails: 2 is a member of the row of root 1 and 3 is
    the root of its own row, yet the union of 2 and 3 merges nothing,
    because [unionSets] looks its arguments up as roots. *)
Lemma union_contract_counterexample :
  find_root 2 db_pair_third = Some 1 ∧ find_root 3 db_pair_third = Some 3 ∧
  unionSets 2 3 db_pair_third = db_pair_third ∧
  ¬ union_contract 2 3 db_pair_third.
Proof.
  split_and!; [reflexivity..|].
  intros Hcontract.
  destruct (Hcontract 1 3 eq_refl eq_refl) as [Hmerge _].
  assert (member_of (unionSets 2 3 db_pair_third) 1 3) as Hm.
  { apply Hmerge; [done|]. left. split; [done|]. right.
    by_decide. }
  revert Hm. by_decide.
Qed.

(** C3, amended.  [unionSets] takes two roots and does not resolve its
    arguments through [find].  For two different ids that are both the
    root of a row, the first row of the smaller root keeps its root and
    gets the merged members, its own followed by those of the first row of
    the greater root, duplicates collapsed; afterwards no row has the
    greater root, the members under the smaller root are the ids that were
    members under either, the rows of the other roots and the contacts are
    as they were, and no value is returned.  When one of the two ids is
    not the root of a row, and when both are resolved by [find] to one
    root, the call changes nothing. *)
Theorem unionSets_contract rootA rootB db :
  reachable db →
  (rootA ≠ rootB → is_root db rootA → is_root db rootB →
   ∃ newParent oldParent,
     findOne (λ p, parId p = Z.min rootA rootB) (parents db) = Some newParent ∧
     findOne (λ p, parId p = Z.max rootA rootB) (parents db) = Some oldParent ∧
     let merged := new_Set (childIds newParent ++ childIds oldParent) in
     let db' := unionSets rootA rootB db in
     contacts db' = contacts db ∧
     {| parent_id := parent_id newParent;
        parId := Z.min rootA rootB;
        childIds := merged |} ∈ parents db' ∧
     NoDup merged ∧
     (∀ x, x ∈ merged ↔ x ∈ childIds newParent ∨ x ∈ childIds oldParent) ∧
     ¬ is_root db' (Z.max rootA rootB) ∧
     (∀ r x, member_of db' r x ↔
             (r = Z.min rootA rootB ∧
              (member_of db rootA x ∨ member_of db rootB x)) ∨
             (r ≠ rootA ∧ r ≠ rootB ∧ member_of db r x)) ∧
     (∀ p, p ∈ parents db → parId p ≠ rootA → parId p ≠ rootB →
           p ∈ parents db')) ∧
  (¬ is_root db rootA ∨ ¬ is_root db rootB → unionSets rootA rootB db = db) ∧
  (∀ r, find_root rootA db = Some r → find_root rootB db = Some r →
        unionSets rootA rootB db = db).
Proof.
  intros HI%reachable_Inv.
  assert (¬ is_root db rootA ∨ ¬ is_root db rootB →
          unionSets rootA rootB db = db) as Hmiss.
  { intros Hmiss. apply unionSets_not_found.
    destruct Hmiss as [Hmiss|Hmiss]; [left|right];
      apply eq_None_not_Some; by rewrite <- is_root_findOne. }
  split_and!; [|done|].
  - intros Hab Ha Hb.
    pose proof (unionSets_Inv rootA rootB db HI) as HI'.
    pose proof (merged_roots_view _ _ _ _ HI HI'
                  (unionSets_merged_roots rootA rootB db Ha Hb)) as Hview.
    pose proof (unionSets_old_root_gone rootA rootB db Hab Ha Hb) as Hgone.
    destruct (unionSets_found rootA rootB db Ha Hb)
      as (np & op & Enp & Eop & Heq).
    exists np, op. split; [done|]. split; [done|]. cbv zeta.
    apply findOne_Some in Enp as [Hnp Hnpr].
    split_and!.
    + apply unionSets_contacts.
    + rewrite Heq. simpl. apply list_elem_of_fmap.
      exists np. split; [|done]. unfold union_row.
      rewrite decide_True by lia. by rewrite decide_True by done.
    + apply NoDup_new_Set.
    + intros x. by rewrite elem_of_new_Set, elem_of_app.
    + done.
    + intros r x. rewrite (Hview r x). split.
      * intros [[-> (d & Hd & Hm)]|[Hr Hm]].
        -- left. split; [done|].
           apply elem_of_cons in Hd as [->|Hd]; [by left|].
           apply list_elem_of_singleton in Hd as ->. by right.
        -- right. split_and!; [| |done]; intros ->; apply Hr;
             [left|right; left].
      * intros [[-> [Hm|Hm]]|(Hra & Hrb & Hm)].
        -- left. split; [done|]. exists rootA. split; [left|done].
        -- left. split; [done|]. exists rootB. split; [right; left|done].
        -- right. split; [|done].
           intros [->|[->|[]%elem_of_nil]%elem_of_cons]%elem_of_cons; done.
    + intros p Hp Hpa Hpb. rewrite Heq. simpl. apply list_elem_of_fmap.
      exists p. split; [|done]. unfold union_row.
      rewrite decide_False by tauto. rewrite decide_False; [by destruct p|].
      intros Hid.
      assert (p = np) as ->
        by (eapply NoDup_key_inj; [exact (Inv_NoDup_keys db HI)|done..]).
      lia.
  - intros r Ha Hb. destruct (decide (rootA = rootB)) as [->|Hab].
    { by apply unionSets_self. }
    apply Hmiss.
    apply find_root_has_root in Ha, Hb; [|done..].
    destruct (decide (is_root db rootA)) as [Hra|Hra]; [|by left].
    destruct (decide (is_root db rootB)) as [Hrb|Hrb]; [|by right].
    exfalso. apply Hab.
    apply is_root_has_root in Hra, Hrb; [|done..].
    rewrite (has_root_unique db rootA rootA r HI Hra Ha).
    by rewrite (has_root_unique db rootB rootB r HI Hrb Hb).
Qed.

Lemma unionSets_contract_witness :
  reachable db_three ∧
  parents (unionSets 5 2 db_three) =
  [{| parent_id := 5; parId := 2; childIds := [5] |};
   {| parent_id := 2; parId := 2; childIds := [2; 5] |};
   {| parent_id := 9; parId := 9; childIds := [9] |}] ∧
  {| parent_id := 2; parId := 2; childIds := [2; 5] |} ∈
    parents (unionSets 5 2 db_three).
Proof.
  assert (reachable db_three) as Hr by (by exists ops_three).
  split; [exact Hr|]. split; [reflexivity|].
  assert (5 ≠ 2) as Hne by discriminate.
  assert (is_root db_three 5) as H5 by by_decide.
  assert (is_root db_three 2) as H2 by by_decide.
  destruct (proj1 (unionSets_contract 5 2 db_three Hr) Hne H5 H2)
    as (newParent & oldParent & Enew & Eold & _ & Hin & _).
  injection Enew as <-. injection Eold as <-. exact Hin.
Defined.

(** ** Order of the unions *)

(** The loop of unions of [/add-contact] keeps its first argument: a
    third contact that matches the rows of 1 and of 2 is merged with the
    row of 1, under the root 1, and the union with 2 finds no row of root
    3; the request is answered as a success. *)
Example addContact_third_match_not_merged :
  (addContact 12 third_contact db_two_sets).1 = RedirectIndex ∧
  parents (addContact 12 third_contact db_two_sets).2 =
  [{| parent_id := 1; parId := 1; childIds := [1; 3] |};
   {| parent_id := 2; parId := 2; childIds := [2] |};
   {| parent_id := 3; parId := 1; childIds := [3] |}].
Proof. split; reflexivity. Qed.

(** C4, as stated, fails: the unions of 5 with 2 and of 5 with 9 end in
    different partitions in their two call orders.  Called first, the
    union of 5 and 2 leaves no row of root 5, and the union of 5 and 9
    that follows merges nothing: 9 keeps its root.  Called in the other
    order they bring the three rows under the root 2. *)
Lemma merge_determinism_counterexample :
  ¬ merge_determinism [5; 2; 9] db_three ∧
  has_root (union_in_order [5; 2; 9] db_three) 9 9 ∧
  ¬ member_of (union_in_order [5; 2; 9] db_three) 2 9 ∧
  has_root (union_in_order [5; 9; 2] db_three) 9 2 ∧
  member_of (union_in_order [5; 9; 2] db_three) 2 9.
Proof.
  split; [|split_and!; by_decide].
  intros Hdet. destruct (Hdet [5; 2; 9]) as (p & Hone & _); [done|].
  vm_compute in Hone. discriminate Hone.
Qed.

(** C4, amended.  From any reachable store and any list [rs] of roots of
    its rows, the loop of pairwise unions of [/identify], in which every
    call names the current root of the merged rows, run over [rs] in any
    order and started from any of them, ends with [baseRoot = min rs]:
    the ids that were members under a root of [rs] are the members under
    that minimum, the members under every other root are as they were,
    and every row has the same root for every order.  A union of two
    different roots done a second time changes nothing. *)
Theorem union_order_independent db rs rs' base base' :
  reachable db → Forall (is_root db) rs →
  rs ≡ₚ rs' → base ∈ rs → base' ∈ rs' →
  let final := (union_all rs base db).2 in
  let final' := (union_all rs' base' db).2 in
  ∃ m,
    least m rs ∧
    (union_all rs base db).1 = m ∧ (union_all rs' base' db).1 = m ∧
    (∀ r x, member_of final r x ↔
            (r = m ∧ ∃ d, d ∈ rs ∧ member_of db d x) ∨
            ((r ∉ rs) ∧ member_of db r x)) ∧
    (∀ x r, has_root final x r ↔
            ∃ r0, has_root db x r0 ∧ r = if decide (r0 ∈ rs) then m else r0) ∧
    (∀ x r, has_root final x r ↔ has_root final' x r) ∧
    (∀ r x, member_of final r x ↔ member_of final' r x) ∧
    (∀ a b s, a ≠ b → unionSets a b (unionSets a b s) = unionSets a b s).
Proof.
  intros HI%reachable_Inv Hrs Hperm Hbase Hbase' final final'.
  rewrite Forall_forall in Hrs.
  assert (∀ r, r ∈ rs' → is_root db r) as Hrs'.
  { intros r Hr. apply Hrs. by rewrite Hperm. }
  assert (∀ d, d ∈ base :: rs ↔ d ∈ rs) as Hset.
  { intros d. rewrite elem_of_cons. split; [by intros [->|?]|auto]. }
  assert (∀ d, d ∈ base' :: rs' ↔ d ∈ rs) as Hset'.
  { intros d. rewrite elem_of_cons, <- Hperm.
    split; [intros [->|?]; [by rewrite Hperm|done]|auto]. }
  destruct (union_all_roots db rs base (Hrs _ Hbase)) as (Hl & _ & Hv).
  { intros r Hr. left. by apply Hrs. }
  destruct (union_all_roots db rs' base' (Hrs' _ Hbase')) as (Hl' & _ & Hv').
  { intros r Hr. left. by apply Hrs'. }
  apply (least_proper _ _ _ Hset) in Hl.
  apply (least_proper _ _ _ Hset') in Hl'.
  pose proof (least_unique _ _ _ Hl' Hl) as Hm.
  apply (merged_roots_proper _ _ rs) in Hv; [|intros d _; apply Hset].
  apply (merged_roots_proper _ _ rs) in Hv'; [|intros d _; apply Hset'].
  rewrite Hm in Hv'.
  pose proof (merged_roots_view _ _ _ _ HI (union_all_Inv rs base db HI) Hv)
    as Hview.
  pose proof (merged_roots_view _ _ _ _ HI (union_all_Inv rs' base' db HI) Hv')
    as Hview'.
  exists (union_all rs base db).1. subst final final'.
  split_and!; [done|done|done|exact Hview|exact Hv| | |].
  - intros x r. by rewrite (Hv x r), (Hv' x r).
  - intros r x. by rewrite (Hview r x), (Hview' r x).
  - intros a b s. apply unionSets_idem.
Qed.

Lemma union_order_independent_witness :
  reachable db_three ∧
  (union_all [5; 2; 9] 5 db_three).1 = 2 ∧
  (union_all [9; 5; 2] 9 db_three).1 = 2 ∧
  ∀ x r, has_root (union_all [5; 2; 9] 5 db_three).2 x r ↔
         has_root (union_all [9; 5; 2] 9 db_three).2 x r.
Proof.
  assert (reachable db_three) as Hr by (by exists ops_three).
  assert (Forall (is_root db_three) [5; 2; 9]) as Hroots
    by by_decide.
  assert ([5; 2; 9] ≡ₚ [9; 5; 2]) as Hperm
    by by_decide.
  assert (5 ∈ [5; 2; 9]) as H5 by by_decide.
  assert (9 ∈ [9; 5; 2]) as H9 by by_decide.
  destruct (union_order_independent db_three [5; 2; 9] [9; 5; 2] 5 9
              Hr Hroots Hperm H5 H9)
    as (m & _ & <- & _ & _ & _ & Hsame & _).
  split_and!; [exact Hr|reflexivity|reflexivity|exact Hsame].
Defined.

(** ** Aggregation *)




(** * Further properties of the handlers *)

(** ** What [/identify] answers *)

Lemma NoDup_const {A} (l : list A) b :
  NoDup l → l ≠ [] → (∀ x, x ∈ l → x = b) → l = [b].
Proof.
  intros Hnd Hne Hall. destruct l as [|x [|y l]]; [done| |].
  - f_equal. apply Hall. left.
  - exfalso. apply NoDup_cons in Hnd as [Hx _]. apply Hx.
    rewrite (Hall x), (Hall y); [left|right; left|left].
Qed.

(** When every row that holds a matched contact has the root [b], the
    roots of the matched contacts are that one. *)
Lemma rootsArr_of_single matched db b :
  (∃ p c, p ∈ parents db ∧ c ∈ matched ∧ contact_id c ∈ childIds p) →
  (∀ p c, p ∈ parents db → c ∈ matched → contact_id c ∈ childIds p →
          parId p = b) →
  rootsArr_of matched db = [b].
Proof.
  intros (p & c & Hp & Hc & Hin) Hall. apply NoDup_const.
  - apply NoDup_new_Set.
  - intros Hnil.
    assert (parId p ∈ rootsArr_of matched db) as Hr
      by (apply elem_of_rootsArr_of; eauto 6).
    rewrite Hnil in Hr. by apply elem_of_nil in Hr.
  - intros r (p' & Hp' & <- & c' & Hc' & Hin')%elem_of_rootsArr_of. eauto.
Qed.

(** The match branch on matched contacts that have one root: no union
    is made. *)
Lemma identify_merge_single matched db b :
  rootsArr_of matched db = [b] →
  identify_merge matched db = (Json (match_summary b db), db).
Proof.
  intros Hroots. unfold identify_merge.
  fold (rootsArr_of matched db). rewrite Hroots. cbn [Math_min foldl].
  cbn [union_all]. by rewrite decide_False by (by intros ?).
Qed.

(** After the loop every row that holds a matched contact has the root
    the loop ended on. *)
Lemma merged_rows_of_matched matched db base db' p c :
  Inv db → Inv db' → (∀ c, c ∈ matched → c ∈ contacts db) →
  merged_roots db (rootsArr_of matched db) base db' →
  p ∈ parents db' → c ∈ matched → contact_id c ∈ childIds p →
  parId p = base.
Proof.
  intros HI HI' Hsub Hv Hp Hc Hin.
  pose proof (inv_members _ HI' p _ Hp Hin) as Hroot.
  apply Hv in Hroot as (r0 & Hr0 & ->).
  rewrite decide_True; [done|]. by eapply matched_root.
Qed.

(** A second run of the match branch on the store the first has left. *)
Lemma identify_merge_again matched db :
  Inv db → matched ≠ [] → (∀ c, c ∈ matched → c ∈ contacts db) →
  identify_merge matched (identify_merge matched db).2 =
  identify_merge matched db.
Proof.
  intros HI Hne Hsub.
  destruct (identify_merge_spec matched db HI Hne Hsub)
    as (base & db' & Heq & _ & HI' & Hcs & Hleast & Hv).
  rewrite Heq. cbn [snd]. apply identify_merge_single.
  apply rootsArr_of_single.
  - destruct matched as [|c0 matched']; [done|].
    assert (contact_id c0 ∈ parent_id <$> parents db') as Hin.
    { rewrite (inv_keys _ HI'), Hcs. apply list_elem_of_fmap_2, Hsub. left. }
    apply list_elem_of_fmap in Hin as (p & Hid & Hp).
    exists p, c0. split_and!; [done|left|].
    rewrite Hid. by apply (inv_self _ HI').
  - intros p c Hp Hc Hin.
    exact (merged_rows_of_matched matched db base db' p c HI HI' Hsub Hv
             Hp Hc Hin).
Qed.

Lemma identify_match now q db :
  filter (matches q) (contacts db) ≠ [] →
  identify now q db = identify_merge (filter (matches q) (contacts db)) db.
Proof.
  intros Hne. unfold identify.
  destruct (filter (matches q) (contacts db)) as [|c0 cs0] eqn:E; [done|].
  assert (matches q c0) as Hc0.
  { assert (c0 ∈ filter (matches q) (contacts db)) as Hin
      by (rewrite E; left).
    by apply list_elem_of_filter in Hin as [? _]. }
  rewrite decide_True; [done|]. destruct Hc0 as [[? _]|[? _]]; auto.
Qed.

Lemma filter_matches_sub q db c :
  c ∈ filter (matches q) (contacts db) → c ∈ contacts db.
Proof. by intros [_ ?]%list_elem_of_filter. Qed.

(** The summary read for a contact that is alone in its row. *)
Lemma match_summary_created now q db :
  Inv db → truthy (q_email q) ∨ truthy (q_phoneNumber q) →
  next_id db ∉ contact_id <$> contacts db →
  match_summary (next_id db) (saved_store (created_contact now q db) db) =
  {| primaryContatctId := Some (Num (next_id db));
     primaryContactId := Num (next_id db);
     emails := text_list (q_email q);
     phoneNumbers := text_list (q_phoneNumber q);
     secondaryContactIds := [] |}.
Proof.
  intros HI Hq Hfresh.
  set (created := created_contact now q db).
  assert (Inv (saved_store created db)) as HI1 by (by apply Inv_saved_store).
  assert (findOne (λ p, parId p = next_id db) (parents (saved_store created db))
          = Some (singleton_parent (next_id db))) as Hfind.
  { simpl. rewrite findOne_app_r; [by apply findOne_singleton|].
    apply findOne_None. intros p Hp Hpar. apply Hfresh.
    rewrite <- Hpar. eapply has_root_contact; [done|].
    by apply (inv_root _ HI). }
  rewrite (match_summary_spec _ _ _ Hfind). cbn [childIds singleton_parent].
  assert (findById (next_id db) (contacts (saved_store created db))
          = Some created) as Hdoc.
  { apply findById_Some; [apply (inv_contacts _ HI1)|]. split; [|done].
    simpl. apply elem_of_app. right. by apply list_elem_of_singleton. }
  assert (email_of (contacts (saved_store created db)) (next_id db) =
          if decide (truthy (q_email q)) then q_email q else None) as Hemail
    by (unfold email_of; by rewrite Hdoc).
  assert (phone_of (contacts (saved_store created db)) (next_id db) =
          if decide (truthy (q_phoneNumber q)) then q_phoneNumber q else None)
    as Hphone by (unfold phone_of; by rewrite Hdoc).
  cbn [omap list_omap]. rewrite Hemail, Hphone. f_equal.
  - unfold text_list. destruct (q_email q) as [e|]; [|done].
    destruct (decide (truthy (Some e))); [|done].
    apply (new_Set_twice [e]), NoDup_singleton.
  - unfold text_list. destruct (q_phoneNumber q) as [t|]; [|done].
    destruct (decide (truthy (Some t))); [|done].
    apply (new_Set_twice [t]), NoDup_singleton.
  - by rewrite filter_cons_False by (by intros ?).
Qed.

(** X11.  A second [/identify] with the same body changes nothing more.
    After a match it answers what the first answered; after the creation
    of a new contact it answers the summary of the first with the legacy
    field added. *)
Theorem identify_twice now now' q db :
  guarded_reachable db →
  (identify now' q (identify now q db).2).2 = (identify now q db).2 ∧
  (filter (matches q) (contacts db) ≠ [] →
   (identify now' q (identify now q db).2).1 = (identify now q db).1) ∧
  (filter (matches q) (contacts db) = [] →
   ∀ s, (identify now q db).1 = Json s →
        (identify now' q (identify now q db).2).1 =
        Json {| primaryContatctId := Some (primaryContactId s);
                primaryContactId := primaryContactId s;
                emails := emails s;
                phoneNumbers := phoneNumbers s;
                secondaryContactIds := secondaryContactIds s |}).
Proof.
  intros HI%guarded_reachable_Inv.
  destruct (decide (truthy (q_email q) ∨ truthy (q_phoneNumber q)))
    as [Hq|Hq]; last first.
  { assert (∀ t, identify t q db = (Status400, db)) as H400
      by (intros t; unfold identify; by rewrite decide_False).
    rewrite (H400 now). cbn [fst snd]. rewrite (H400 now').
    by split_and!. }
  destruct (filter (matches q) (contacts db)) as [|c0 cs0] eqn:Ematch.
  - (* no match *)
    assert (∀ t, identify t q db = identify_new t q db) as Hnew
      by (intros t; unfold identify; by rewrite decide_True, Ematch).
    rewrite (Hnew now), identify_new_spec by done.
    case_decide as Hfresh.
    { (* the id is in use: both requests are refused *)
      cbn [fst snd]. rewrite (Hnew now'), identify_new_spec by done.
      rewrite decide_True by done. by split_and!. }
    cbn [fst snd]. set (created := created_contact now q db).
    set (db1 := saved_store created db).
    assert (Inv db1) as HI1 by (by apply Inv_saved_store).
    assert (matches q created) as Hcreated.
    { destruct Hq; [left|right]; done. }
    assert (filter (matches q) (contacts db1) = [created]) as Ematch1.
    { simpl. rewrite filter_app, Ematch. by rewrite filter_cons_True. }
    assert (rootsArr_of [created] db1 = [next_id db]) as Hroots.
    { apply rootsArr_of_single.
      - exists (singleton_parent (next_id db)), created.
        split_and!; [|left|by left].
        simpl. apply elem_of_app. right. by left.
      - intros p c Hp ->%list_elem_of_singleton Hin.
        pose proof (inv_members _ HI1 p _ Hp Hin) as Hroot.
        eapply has_root_unique; [done..|].
        apply has_root_saved_store_new. }
    rewrite identify_match by (by rewrite Ematch1).
    rewrite Ematch1, (identify_merge_single _ _ _ Hroots). cbn [fst snd].
    subst db1 created. rewrite match_summary_created by done.
    split_and!; [done|done|]. by intros _ s [= <-].
  - (* a match *)
    assert (filter (matches q) (contacts db) ≠ []) as Hne by (by rewrite Ematch).
    rewrite <- Ematch in *. clear Ematch.
    pose proof (identify_merge_again _ db HI Hne (filter_matches_sub q db))
      as Hagain.
    rewrite (identify_match now) by done.
    destruct (identify_merge_spec _ db HI Hne (filter_matches_sub q db))
      as (base & db' & Heq & _ & _ & Hcs & _).
    rewrite Heq in *. cbn [fst snd] in *.
    rewrite identify_match by (by rewrite Hcs). rewrite Hcs, Hagain.
    by split_and!.
Qed.

Lemma identify_twice_witness :
  guarded_reachable db_two_sets ∧
  identify 21 {| q_email := Some "a@x.com"; q_phoneNumber := Some "222" |}
    (identify 20 {| q_email := Some "a@x.com"; q_phoneNumber := Some "222" |}
       db_two_sets).2 =
  identify 20 {| q_email := Some "a@x.com"; q_phoneNumber := Some "222" |}
    db_two_sets.
Proof.
  assert (guarded_reachable db_two_sets) as Hr.
  { by_run. }
  split; [exact Hr|].
  set (q := {| q_email := Some "a@x.com"; q_phoneNumber := Some "222" |}).
  destruct (identify_twice 20 21 q db_two_sets Hr) as (Hstore & Hresp & _).
  rewrite (surjective_pairing (identify 21 q _)), Hstore, Hresp.
  - by rewrite <- surjective_pairing.
  - vm_compute. discriminate.
Defined.

(** The summary of the match branch, with the row it is read from. *)
Lemma identify_match_summary now q db s db' :
  Inv db → filter (matches q) (contacts db) ≠ [] →
  identify now q db = (Json s, db') →
  ∃ b final,
    s = match_summary b db' ∧
    Inv db' ∧ contacts db' = contacts db ∧
    least b (rootsArr_of (filter (matches q) (contacts db)) db) ∧
    merged_roots db (rootsArr_of (filter (matches q) (contacts db)) db) b db' ∧
    findOne (λ p, parId p = b) (parents db') = Some final.
Proof.
  intros HI Hne Hrun. rewrite identify_match in Hrun by done.
  destruct (identify_merge_spec _ db HI Hne (filter_matches_sub q db))
    as (b & db'' & Heq & _ & HI' & Hcs & Hleast & Hv).
  rewrite Heq in Hrun. injection Hrun as <- <-.
  assert (is_root db'' b) as Hroot.
  { apply (merged_roots_is_root _ _ _ _ _ Hv). left. split; [done|].
    exists b. split; [apply Hleast|].
    by eapply rootsArr_of_is_root, Hleast. }
  apply is_root_findOne in Hroot as [final Hfind].
  by exists b, final.
Qed.

(** X12.  The primary id of a match is the id of a contact, it is not
    greater than the id of any matched contact, and it is smaller than
    every secondary id; the secondary ids are ids of contacts, each listed
    once. *)
Theorem identify_primary_is_least now q db s db' :
  guarded_reachable db → filter (matches q) (contacts db) ≠ [] →
  identify now q db = (Json s, db') →
  ∃ b,
    primaryContactId s = Num b ∧
    b ∈ contact_id <$> contacts db ∧
    (∀ c, c ∈ contacts db → matches q c → b ≤ contact_id c) ∧
    (∀ i, i ∈ secondaryContactIds s →
          b < i ∧ i ∈ contact_id <$> contacts db) ∧
    NoDup (secondaryContactIds s).
Proof.
  intros HI%guarded_reachable_Inv Hne Hrun.
  destruct (identify_match_summary now q db s db' HI Hne Hrun)
    as (b & final & -> & HI' & Hcs & Hleast & Hv & Hfind).
  rewrite (match_summary_spec _ _ _ Hfind). cbn.
  apply findOne_Some in Hfind as [Hfinal Hpar].
  assert (∀ x, x ∈ childIds final →
               b ≤ x ∧ x ∈ contact_id <$> contacts db) as Hmem.
  { intros x Hx. pose proof (inv_members _ HI' final x Hfinal Hx) as Hroot.
    rewrite Hpar in Hroot. split.
    - destruct Hroot as (p & Hp & <- & <-). by apply (inv_least _ HI').
    - rewrite <- Hcs. by eapply has_root_contact. }
  exists b. split_and!; [done| | | |].
  - destruct Hleast as [(p & Hp & <- & _)%elem_of_rootsArr_of _].
    eapply has_root_contact; [done|]. by apply (inv_root _ HI).
  - intros c Hc Hm.
    destruct (contact_has_root db (contact_id c) HI) as [r0 Hr0].
    { by apply list_elem_of_fmap_2. }
    assert (r0 ∈ rootsArr_of (filter (matches q) (contacts db)) db) as Hin.
    { eapply matched_root; [done| |done]. by apply list_elem_of_filter. }
    apply Hleast in Hin. destruct Hr0 as (p & Hp & <- & <-).
    pose proof (inv_least _ HI p Hp). lia.
  - intros i [Hne' Hi]%list_elem_of_filter.
    destruct (Hmem i Hi). split; [lia|done].
  - by apply NoDup_filter, (inv_children _ HI').
Qed.

Lemma identify_primary_is_least_witness :
  guarded_reachable db_three ∧
  ∃ s db',
    identify 20 {| q_email := Some "i@x.com"; q_phoneNumber := Some "555" |}
      db_three = (Json s, db') ∧
    primaryContactId s = Num 5 ∧ secondaryContactIds s = [9].
Proof.
  assert (guarded_reachable db_three) as Hr.
  { by_run. }
  split; [exact Hr|].
  set (q := {| q_email := Some "i@x.com"; q_phoneNumber := Some "555" |}).
  assert (filter (matches q) (contacts db_three) ≠ []) as Hne
    by (vm_compute; discriminate).
  eexists _, _. split; [reflexivity|].
  destruct (identify_primary_is_least 20 q db_three _ _ Hr Hne eq_refl)
    as (b & Hb & _).
  split; [|reflexivity]. rewrite Hb. f_equal. by injection Hb.
Defined.

(** X13.  After a match, every row that holds a matched contact, and
    every row that had one root with the row of a matched contact, has
    the primary id of the answer as its [parId]; the row of any other
    root has the [parId] it had. *)
Theorem identify_roots_matches now q db s db' :
  reachable db → filter (matches q) (contacts db) ≠ [] →
  identify now q db = (Json s, db') →
  ∃ b,
    primaryContactId s = Num b ∧
    (∀ p c, p ∈ parents db' → c ∈ contacts db → matches q c →
            contact_id c ∈ childIds p → parId p = b) ∧
    (∀ c x r, c ∈ contacts db → matches q c →
              has_root db (contact_id c) r → has_root db x r →
              has_root db' x b) ∧
    (∀ x r, has_root db x r →
            (∀ c, c ∈ contacts db → matches q c →
                  ¬ has_root db (contact_id c) r) →
            has_root db' x r).
Proof.
  intros HI%reachable_Inv Hne Hrun.
  destruct (identify_match_summary now q db s db' HI Hne Hrun)
    as (b & final & -> & HI' & Hcs & Hleast & Hv & Hfind).
  rewrite (match_summary_spec _ _ _ Hfind). cbn.
  exists b. split_and!; [done| | |].
  - intros p c Hp Hc Hm Hin.
    eapply (merged_rows_of_matched _ db b db' p c HI HI'
              (filter_matches_sub q db) Hv Hp); [|done].
    by apply list_elem_of_filter.
  - intros c x r Hc Hm Hcr Hxr. apply Hv. exists r. split; [done|].
    rewrite decide_True; [done|].
    eapply matched_root; [done| |done]. by apply list_elem_of_filter.
  - intros x r Hxr Hnone. apply Hv. exists r. split; [done|].
    rewrite decide_False; [done|].
    intros (c & [Hm Hc]%list_elem_of_filter & Hcr)%rootsArr_of_matched;
      [|done].
    by eapply Hnone.
Qed.

Lemma identify_roots_matches_witness :
  reachable db_three ∧
  ∃ s db',
    identify 20 {| q_email := Some "i@x.com"; q_phoneNumber := Some "555" |}
      db_three = (Json s, db') ∧
    has_root db' 9 5 ∧ has_root db' 5 5 ∧ has_root db' 2 2.
Proof.
  assert (reachable db_three) as Hr by (by exists ops_three).
  split; [exact Hr|].
  set (q := {| q_email := Some "i@x.com"; q_phoneNumber := Some "555" |}).
  assert (filter (matches q) (contacts db_three) ≠ []) as Hne
    by (vm_compute; discriminate).
  eexists _, _. split; [reflexivity|].
  destruct (identify_roots_matches 20 q db_three _ _ Hr Hne eq_refl)
    as (b & Hb & _ & Hjoin & Hkeep).
  assert (b = 5) as -> by (by injection Hb).
  split_and!.
  - apply (Hjoin {| contact_id := 9; phoneNumber := Some "999";
                    email := Some "i@x.com"; linkedId := None;
                    linkPrecedence := primary; createdAt := 12;
                    updatedAt := 12 |} 9 9); by_decide.
  - apply (Hjoin {| contact_id := 5; phoneNumber := Some "555";
                    email := Some "e@x.com"; linkedId := None;
                    linkPrecedence := primary; createdAt := 10;
                    updatedAt := 10 |} 5 5); by_decide.
  - apply (Hkeep 2 2); [by_decide|].
    intros c Hc Hm. revert Hc Hm. 
    assert (Forall (λ c, matches q c → ¬ has_root db_three (contact_id c) 2)
              (contacts db_three)) as Hall by by_decide.
    rewrite Forall_forall in Hall. apply Hall.
Defined.

(** ** The roots [/add-contact] collects *)

Lemma roots_of_from ps ids :
  ∀ acc r,
    r ∈ foldl (λ roots mid,
                 match findOne (λ p, mid ∈ childIds p) ps with
                 | Some parentDoc => Set_add (parId parentDoc) roots
                 | None => roots
                 end) acc ids ↔
    r ∈ acc ∨
    ∃ mid p, mid ∈ ids ∧
             findOne (λ p, mid ∈ childIds p) ps = Some p ∧ parId p = r.
Proof.
  induction ids as [|m ids IH]; intros acc r; simpl.
  { split; [auto|]. intros [?|(? & ? & ?%elem_of_nil & _)]; done. }
  rewrite IH. split.
  - intros [Hr|(mid & p & Hmid & Hp & Hr)].
    + destruct (findOne (λ p, m ∈ childIds p) ps) as [p|] eqn:E; [|by left].
      apply elem_of_Set_add in Hr as [->|Hr]; [|by left].
      right. exists m, p. split_and!; [left|done..].
    + right. exists mid, p. split_and!; [by right|done..].
  - intros [Hr|(mid & p & [->|Hmid]%elem_of_cons & Hp & Hr)].
    + left. destruct (findOne _ ps); [|done]. apply elem_of_Set_add. auto.
    + left. rewrite Hp. apply elem_of_Set_add. auto.
    + right. eauto.
Qed.

Lemma elem_of_roots_of ids ps r :
  r ∈ roots_of ids ps ↔
  ∃ mid p, mid ∈ ids ∧
           findOne (λ p, mid ∈ childIds p) ps = Some p ∧ parId p = r.
Proof.
  unfold roots_of. rewrite roots_of_from. split; [|auto].
  by intros [?%elem_of_nil|?].
Qed.

Lemma roots_of_head ps m ids p :
  findOne (λ p, m ∈ childIds p) ps = Some p →
  ∃ rest, roots_of (m :: ids) ps = parId p :: rest.
Proof.
  intros Ep. unfold roots_of. simpl. rewrite Ep.
  unfold Set_add at 2. rewrite decide_False by (by intros ?%elem_of_nil).
  simpl. generalize (@nil Z).
  induction ids as [|m' ids IH]; intros acc; simpl; [by eexists|].
  destruct (findOne (λ p, m' ∈ childIds p) ps) as [p'|]; [|apply IH].
  unfold Set_add at 2. case_decide; [apply IH|].
  rewrite <- app_comm_cons. apply IH.
Qed.


(** ** [unionSets] *)

(** X1.  The order of the two arguments of [unionSets] does not matter,
    on any store. *)
Theorem unionSets_symmetric rootA rootB db :
  unionSets rootA rootB db = unionSets rootB rootA db.
Proof. apply unionSets_comm. Qed.

(** X2.  On a reachable store a union of a root with itself changes
    nothing: the row is read twice, its members merged with themselves
    are the members it has, and no row is deleted. *)
Theorem unionSets_same_root db r :
  reachable db → unionSets r r db = db.
Proof. intros HI%reachable_Inv. by apply unionSets_self. Qed.

Lemma unionSets_same_root_witness :
  reachable db_pair ∧ is_root db_pair 1 ∧ unionSets 1 1 db_pair = db_pair.
Proof.
  assert (reachable db_pair) as Hr by (by exists ops_pair).
  split_and!; [exact Hr|by_decide|].
  exact (unionSets_same_root db_pair 1 Hr).
Defined.

(** The rows of two different roots share no member. *)
Lemma Inv_disjoint_roots db p q x :
  Inv db → p ∈ parents db → q ∈ parents db →
  x ∈ childIds p → x ∈ childIds q → parId p = parId q.
Proof.
  intros HI Hp Hq Hxp Hxq.
  eapply has_root_unique; [done|by apply (inv_members _ HI)..].
Qed.

(** X3.  On a reachable store the union of two different roots has no
    duplicate to collapse: the first row of the smaller root gets its
    members, in their order, followed by those of the first row of the
    greater root, in theirs.  That second row stays in the collection
    with the members it had, under the smaller root, which is not one of
    them; no row is removed and none changes its [_id]. *)
Theorem unionSets_members_in_order rootA rootB db :
  reachable db → rootA ≠ rootB →
  is_root db rootA → is_root db rootB →
  ∃ newParent oldParent,
    findOne (λ p, parId p = Z.min rootA rootB) (parents db) = Some newParent ∧
    findOne (λ p, parId p = Z.max rootA rootB) (parents db) = Some oldParent ∧
    {| parent_id := parent_id newParent;
       parId := Z.min rootA rootB;
       childIds := childIds newParent ++ childIds oldParent |} ∈
      parents (unionSets rootA rootB db) ∧
    {| parent_id := parent_id oldParent;
       parId := Z.min rootA rootB;
       childIds := childIds oldParent |} ∈
      parents (unionSets rootA rootB db) ∧
    (Z.min rootA rootB ∉ childIds oldParent) ∧
    parent_id <$> parents (unionSets rootA rootB db) =
    parent_id <$> parents db.
Proof.
  intros HI%reachable_Inv Hab Ha Hb.
  destruct (unionSets_found rootA rootB db Ha Hb)
    as (np & op & Enp & Eop & Heq).
  exists np, op. split; [done|]. split; [done|].
  apply findOne_Some in Enp as [Hnp Hnpr], Eop as [Hop Hopr].
  assert (new_Set (childIds np ++ childIds op) = childIds np ++ childIds op)
    as Hmerged.
  { apply new_Set_id, NoDup_app.
    split_and!; [by apply (inv_children _ HI)| |by apply (inv_children _ HI)].
    intros x Hx Hx'.
    pose proof (Inv_disjoint_roots db np op x HI Hnp Hop Hx Hx'). lia. }
  assert (parent_id op ≠ parent_id np) as Hids.
  { intros Hid.
    assert (op = np) as ->
      by (eapply NoDup_key_inj; [exact (Inv_NoDup_keys db HI)|done..]).
    lia. }
  split_and!.
  - rewrite Heq, Hmerged. simpl. apply list_elem_of_fmap.
    exists np. split; [|done]. unfold union_row.
    rewrite decide_True by lia. by rewrite decide_True by done.
  - rewrite Heq. simpl. apply list_elem_of_fmap.
    exists op. split; [|done]. unfold union_row.
    rewrite decide_True by lia. by rewrite decide_False by done.
  - intros Hin.
    destruct (inv_members _ HI op _ Hop Hin) as (p & Hp & Hid & Hpar).
    pose proof (inv_least _ HI p Hp). lia.
  - apply unionSets_keys.
Qed.

Lemma unionSets_members_in_order_witness :
  reachable db_pair_third ∧
  {| parent_id := 1; parId := 1; childIds := [1; 2; 3] |} ∈
    parents (unionSets 3 1 db_pair_third) ∧
  {| parent_id := 3; parId := 1; childIds := [3] |} ∈
    parents (unionSets 3 1 db_pair_third).
Proof.
  assert (reachable db_pair_third) as Hr by (by eexists).
  split; [exact Hr|].
  assert (3 ≠ 1) as Hne by discriminate.
  assert (is_root db_pair_third 3) as H3 by by_decide.
  assert (is_root db_pair_third 1) as H1 by by_decide.
  destruct (unionSets_members_in_order 3 1 db_pair_third Hr Hne H3 H1)
    as (newParent & oldParent & Enew & Eold & Hnew & Hold & _).
  injection Enew as <-. injection Eold as <-. split; [exact Hnew|exact Hold].
Defined.

(** ** What no operation undoes *)

Section monotone.
Variable R : Store → Store → Prop.
Hypothesis R_refl : ∀ db, R db db.
Hypothesis R_trans : ∀ db1 db2 db3, R db1 db2 → R db2 db3 → R db1 db3.
Hypothesis R_union : ∀ a b db, Inv db → R db (unionSets a b db).
Hypothesis R_saved : ∀ c db,
  Inv db → contact_id c ∉ contact_id <$> contacts db → R db (saved_store c db).

Lemma union_all_mono rs base db : Inv db → R db (union_all rs base db).2.
Proof.
  revert base db. induction rs as [|r rs IH]; intros base db HI; simpl; [done|].
  case_decide; [|by apply IH].
  eapply R_trans; [by apply R_union|]. by apply IH, unionSets_Inv.
Qed.

Lemma union_linked_mono body newRoot db :
  Inv db → R db (union_linked body newRoot db).
Proof.
  intros HI. unfold union_linked. repeat case_match; try done.
  by apply R_union.
Qed.

Lemma union_roots_mono newRoot roots db :
  Inv db → R db (union_roots newRoot roots db).
Proof.
  unfold union_roots. revert db.
  induction roots as [|r roots IH]; intros db HI; simpl; [done|].
  case_decide; [|by apply IH].
  eapply R_trans; [by apply R_union|]. by apply IH, unionSets_Inv.
Qed.

Lemma addContact_mono now body db : Inv db → R db (addContact now body db).2.
Proof.
  intros HI.
  destruct (decide (linkedId_required body ∨ trim_throws body ∨
                    new_contact now body = None ∨
                    body_id body ∈ contact_id <$> contacts db)) as [Hfail|Hok].
  { by destruct (addContact_failure now body db HI Hfail) as [_ ->]. }
  destruct (new_contact now body) as [c|] eqn:Ec; [|tauto].
  rewrite (addContact_success now body db c) by tauto. simpl.
  assert (contact_id c ∉ contact_id <$> contacts db) as Hfresh.
  { rewrite (new_contact_id _ _ _ Ec). tauto. }
  assert (Inv (saved_store c db)) as HI1 by (by apply Inv_saved_store).
  eapply R_trans; [by apply R_saved|].
  eapply R_trans; [by apply union_linked_mono|].
  by apply union_roots_mono, union_linked_Inv.
Qed.

Lemma identify_mono now q db : Inv db → R db (identify now q db).2.
Proof.
  intros HI. unfold identify. case_decide; [|done].
  destruct (filter (matches q) (contacts db)) as [|c0 cs0].
  - rewrite identify_new_spec by done. case_decide; [done|].
    simpl. by apply R_saved.
  - unfold identify_merge. destruct (Math_min _) as [base|]; [|done].
    match goal with
    | |- context [union_all ?rs base db] =>
        pose proof (union_all_mono rs base db HI) as Hmono;
        destruct (union_all rs base db) as [baseRoot db']
    end.
    done.
Qed.

Lemma step_mono op db : Inv db → R db (step op db).
Proof.
  intros HI. destruct op as [now body|now q|a b|]; simpl.
  - by apply addContact_mono.
  - by apply identify_mono.
  - by apply R_union.
  - done.
Qed.

Lemma run_mono ops db : Inv db → R db (run ops db).
Proof.
  unfold run. revert db.
  induction ops as [|op ops IH]; intros db HI; simpl; [done|].
  eapply R_trans; [by apply step_mono|]. by apply IH, step_Inv.
Qed.
End monotone.

Lemma sets_grow_refl db : sets_grow db db.
Proof. by intros x y. Qed.

Lemma sets_grow_trans db1 db2 db3 :
  sets_grow db1 db2 → sets_grow db2 db3 → sets_grow db1 db3.
Proof. intros H12 H23 x y Hxy. by apply H23, H12. Qed.

Lemma unionSets_grow a b db : Inv db → sets_grow db (unionSets a b db).
Proof.
  intros HI x y (p & Hp & Hx & Hy).
  destruct (decide (is_root db a ∧ is_root db b)) as [[Ha Hb]|Hmiss];
    last first.
  { rewrite unionSets_not_found; [by exists p|].
    destruct (decide (is_root db a)) as [Ha|Ha];
      [right|left]; apply eq_None_not_Some; rewrite <- is_root_findOne; tauto. }
  destruct (unionSets_found a b db Ha Hb)
    as (np & op & [Hnp _]%findOne_Some & _ & ->).
  exists (union_row a b np (new_Set (childIds np ++ childIds op)) p).
  split; [by apply list_elem_of_fmap_2|]. simpl.
  case_decide as Hid; [|done].
  assert (p = np) as ->
    by (eapply NoDup_key_inj; [exact (Inv_NoDup_keys db HI)|done..]).
  rewrite !elem_of_new_Set, !elem_of_app. auto.
Qed.

Lemma saved_store_grow c db : sets_grow db (saved_store c db).
Proof.
  intros x y (p & Hp & Hx & Hy). exists p. split; [|done].
  simpl. apply elem_of_app. by left.
Qed.

(** X4.  Sets are never split: two ids that are members of one row stay
    members of one row through every later add-contact, identify, list
    and union of two different ids. *)
Theorem sets_never_split db ops x y :
  reachable db → Forall guarded ops →
  same_set db x y → same_set (run ops db) x y.
Proof.
  intros HI%reachable_Inv _.
  apply (run_mono sets_grow sets_grow_refl sets_grow_trans unionSets_grow);
    [|done].
  intros c db' _ _. apply saved_store_grow.
Qed.

Lemma sets_never_split_witness :
  reachable db_pair ∧
  Forall guarded [OpIdentify 20 (by_email "c@x.com"); OpUnionSets 1 3] ∧
  same_set db_pair 1 2 ∧
  same_set
    (run [OpIdentify 20 (by_email "c@x.com"); OpUnionSets 1 3] db_pair) 1 2.
Proof.
  assert (reachable db_pair) as Hr by (exists ops_pair; reflexivity).
  assert (Forall guarded [OpIdentify 20 (by_email "c@x.com"); OpUnionSets 1 3])
    as Hops by (by repeat constructor).
  assert (same_set db_pair 1 2) as H12.
  { eexists. split; [left|]. split; [left|right; left]. }
  split_and!; [exact Hr|exact Hops|exact H12|].
  exact (sets_never_split db_pair _ 1 2 Hr Hops H12).
Defined.

(** ** Rows and contacts *)

Lemma findById_has db x :
  Inv db → x ∈ contact_id <$> contacts db →
  ∃ doc, findById x (contacts db) = Some doc ∧ contact_id doc = x.
Proof.
  intros HI (doc & -> & Hdoc)%list_elem_of_fmap. exists doc.
  split; [|done]. apply findById_Some; [apply (inv_contacts _ HI)|done].
Qed.

(** X14.  In every reachable store, whatever the arguments [unionSets]
    was called with, no two contacts have one id and every member of a
    row is the id of a contact: the fetch of a member by its id finds a
    document. *)
Theorem members_have_documents db :
  reachable db →
  NoDup (contact_id <$> contacts db) ∧
  ∀ p x, p ∈ parents db → x ∈ childIds p →
         ∃ doc, findById x (contacts db) = Some doc ∧ contact_id doc = x.
Proof.
  intros HI%reachable_Inv. split; [apply (inv_contacts _ HI)|].
  intros p x Hp Hx. apply findById_has; [done|].
  eapply has_root_contact; [done|]. by apply (inv_members _ HI p).
Qed.

Lemma members_have_documents_witness :
  reachable db_self_union ∧
  NoDup (contact_id <$> contacts db_self_union) ∧
  reachable db_pair ∧
  ∀ p x, p ∈ parents db_pair → x ∈ childIds p →
         ∃ doc, findById x (contacts db_pair) = Some doc ∧ contact_id doc = x.
Proof.
  assert (reachable db_self_union) as Hs
    by (exists ops_self_union; reflexivity).
  assert (reachable db_pair) as Hr by (exists ops_pair; reflexivity).
  split_and!.
  - exact Hs.
  - exact (proj1 (members_have_documents db_self_union Hs)).
  - exact Hr.
  - exact (proj2 (members_have_documents db_pair Hr)).
Defined.

(** X15.  In every reachable store, whatever the arguments [unionSets]
    was called with, the rows are those that were created with the
    contacts, one for each and in the same order: no row is ever removed.
    A row holds its own id, and each of its members once; its root is the
    root of the row of each of its members and of its own row, it is not
    greater than any of these ids, and it is its own root. *)
Theorem rows_follow_contacts db :
  reachable db →
  parent_id <$> parents db = contact_id <$> contacts db ∧
  ∀ p, p ∈ parents db →
       parent_id p ∈ childIds p ∧ NoDup (childIds p) ∧
       parId p ≤ parent_id p ∧ has_root db (parId p) (parId p) ∧
       ∀ x, x ∈ childIds p → has_root db x (parId p) ∧ parId p ≤ x.
Proof.
  intros HI%reachable_Inv. split; [apply (inv_keys _ HI)|]. intros p Hp.
  split_and!.
  - by apply (inv_self _ HI).
  - by apply (inv_children _ HI).
  - by apply (inv_least _ HI).
  - by apply (inv_root _ HI).
  - intros x Hx. pose proof (inv_members _ HI p x Hp Hx) as Hroot.
    split; [done|]. destruct Hroot as (q & Hq & <- & <-).
    by apply (inv_least _ HI).
Qed.

Lemma rows_follow_contacts_witness :
  reachable db_pair ∧
  parent_id <$> parents db_pair = [1; 2] ∧
  parId <$> parents db_pair = [1; 1] ∧
  has_root db_pair 2 1.
Proof.
  assert (reachable db_pair) as Hr by (by exists ops_pair).
  destruct (rows_follow_contacts db_pair Hr) as [Hkeys Hrows].
  split_and!; [exact Hr|by rewrite Hkeys|reflexivity|].
  apply (Hrows {| parent_id := 1; parId := 1; childIds := [1; 2] |});
    [left|right; left].
Defined.

(** ** The helpers of the handlers *)

(** X16.  The roots collected for the matching contacts are the roots of
    the rows that [findOne] returns for the matching ids, each listed
    once, on any rows. *)
Theorem roots_of_distinct matchingIds ps :
  NoDup (roots_of matchingIds ps) ∧
  ∀ r, r ∈ roots_of matchingIds ps ↔
       ∃ mid p, mid ∈ matchingIds ∧
                findOne (λ p, mid ∈ childIds p) ps = Some p ∧ parId p = r.
Proof.
  split; [|apply elem_of_roots_of].
  unfold roots_of. generalize (NoDup_nil_2 (A := Z)). generalize (@nil Z).
  induction matchingIds as [|m ids IH]; intros acc Hacc; simpl; [done|].
  apply IH. destruct (findOne _ ps); [by apply NoDup_Set_add|done].
Qed.

(** X17.  The fetch loop of [/identify] returns the emails, and the phone
    numbers, that are neither missing nor empty of the contacts whose ids
    are listed, in the order of their first appearance and once each: an
    id listed twice, or without a document, adds nothing. *)
Theorem collect_first_appearance idList cs :
  collect idList cs [] [] [] =
  (new_Set (omap (email_of cs) idList),
   new_Set (omap (phone_of cs) idList)) ∧
  NoDup (collect idList cs [] [] []).1 ∧
  NoDup (collect idList cs [] [] []).2.
Proof.
  assert (collect idList cs [] [] [] =
          (new_Set (omap (email_of cs) idList),
           new_Set (omap (phone_of cs) idList))) as ->.
  { unfold new_Set. apply collect_spec; by intros ?? ?%elem_of_nil. }
  split_and!; [done|apply NoDup_new_Set..].
Qed.

(** ** The answers of the handlers *)

(** The bodies the tests and the casts of lines 66-83 let through. *)
Lemma addContact_accepts now body :
  ¬ linkedId_required body ∧ ¬ trim_throws body ∧
  is_Some (new_contact now body) ↔
  is_Some (body_linkPrecedence body) ∧
  match body_linkedId body with
  | LinkedMissing | LinkedNotText (Some _) =>
      body_linkPrecedence body ≠ Some secondary
  | Linked _ => True
  | LinkedBlank | LinkedNaN | LinkedNotText None => False
  end.
Proof.
  unfold linkedId_required, trim_throws, new_contact.
  destruct (body_linkPrecedence body) as [[]|],
           (body_linkedId body) as [| | |n|[n|]]; simpl;
    (split; [intros (Hreq & Hthrow & Hc)|intros [Hlp Hl]]);
    try (by destruct Hc); try (by destruct Hlp); try done;
    try (exfalso; apply Hreq; by auto);
    try (exfalso; apply Hthrow; by eauto);
    try (split; [by eauto|done]);
    (split_and!; [by intros [? [?|?]]|by intros [? [? ?]]|by eauto]).
Qed.

(** X5.  On a reachable store [/add-contact] answers with the redirect
    to the index exactly when the precedence is one of the schema, the
    id is not in use, and [linkedId] is text that [parseInt] reads or, for
    a contact that is not secondary, is missing or a number.  It sends
    the request back for its [linkedId] exactly when the contact is
    secondary and [linkedId] is missing or blank.  Every request that is
    not answered with the redirect to the index, one with an id in use or,
    for a secondary contact, with a [linkedId] that is not text among
    them, leaves both collections exactly as they were. *)
Theorem addContact_outcome now body db :
  reachable db →
  ((addContact now body db).1 = RedirectIndex ↔
   is_Some (body_linkPrecedence body) ∧
   match body_linkedId body with
   | LinkedMissing | LinkedNotText (Some _) =>
       body_linkPrecedence body ≠ Some secondary
   | Linked _ => True
   | LinkedBlank | LinkedNaN | LinkedNotText None => False
   end ∧
   body_id body ∉ contact_id <$> contacts db) ∧
  ((addContact now body db).1 = RedirectLinkedIdRequired ↔
   body_linkPrecedence body = Some secondary ∧
   (body_linkedId body = LinkedMissing ∨ body_linkedId body = LinkedBlank)) ∧
  ((addContact now body db).1 ≠ RedirectIndex →
   (addContact now body db).2 = db).
Proof.
  intros HI%reachable_Inv.
  assert ((addContact now body db).1 = RedirectLinkedIdRequired ↔
          linkedId_required body) as Hreq.
  { unfold addContact. case_decide; [done|]. split; [|done].
    repeat case_match; done. }
  pose proof (addContact_accepts now body) as Hacc.
  destruct (decide (linkedId_required body ∨ trim_throws body ∨
                    new_contact now body = None ∨
                    body_id body ∈ contact_id <$> contacts db)) as [Hfail|Hok].
  { destruct (addContact_failure now body db HI Hfail) as [Hne Hdb].
    split_and!; [|done..]. split; [done|].
    intros (Hlp & Hl & Hfresh).
    destruct (proj2 Hacc (conj Hlp Hl)) as (? & ? & [c Hc]).
    destruct Hfail as [?|[?|[?|?]]]; done || congruence. }
  destruct (new_contact now body) as [c|] eqn:Ec; [|tauto].
  split_and!; [|done|].
  - rewrite (addContact_success now body db c) by tauto. simpl.
    split; [|done]. intros _.
    destruct (proj1 Hacc) as [Hlp Hl]; [split_and!; [tauto..|done]|].
    split_and!; [done..|tauto].
  - rewrite (addContact_success now body db c) by tauto. done.
Qed.

Lemma addContact_outcome_witness :
  reachable db_pair ∧
  addContact 20
    (contact_body 3 (Some "z@x.com") None (LinkedNotText (Some 2)) secondary)
    db_pair = (RedirectError, db_pair) ∧
  addContact 20 (contact_body 2 (Some "z@x.com") None LinkedMissing primary)
    db_pair = (RedirectError, db_pair).
Proof.
  assert (reachable db_pair) as Hr by (by exists ops_pair).
  split; [exact Hr|]. split.
  - assert ((addContact 20
               (contact_body 3 (Some "z@x.com") None (LinkedNotText (Some 2))
                  secondary)
               db_pair).1 ≠ RedirectIndex) as Hne by discriminate.
    pose proof (proj2 (proj2 (addContact_outcome 20 _ db_pair Hr)) Hne) as Hdb.
    rewrite (surjective_pairing (addContact 20 _ db_pair)), Hdb. reflexivity.
  - assert ((addContact 20
               (contact_body 2 (Some "z@x.com") None LinkedMissing primary)
               db_pair).1 ≠ RedirectIndex) as Hne by discriminate.
    pose proof (proj2 (proj2 (addContact_outcome 20 _ db_pair Hr)) Hne) as Hdb.
    rewrite (surjective_pairing (addContact 20 _ db_pair)), Hdb. reflexivity.
Defined.

(** X6.  On a reachable store [/identify] answers 400 exactly when
    neither an email nor a phone number is provided, and 500 exactly when
    the query matches no contact and the sum of the greatest id and 1 is
    an id in use; a request that is not answered with a summary changes
    nothing.  While every id is one that a double holds exactly, no
    request is answered 500. *)
Theorem identify_outcome now q db :
  reachable db →
  ((identify now q db).1 = Status400 ↔
   ¬ (truthy (q_email q) ∨ truthy (q_phoneNumber q))) ∧
  ((identify now q db).1 = Status500 ↔
   (truthy (q_email q) ∨ truthy (q_phoneNumber q)) ∧
   filter (matches q) (contacts db) = [] ∧
   next_id db ∈ contact_id <$> contacts db) ∧
  ((∀ s, (identify now q db).1 ≠ Json s) → (identify now q db).2 = db) ∧
  ((∀ c, c ∈ contacts db → safe_id (contact_id c)) →
   (identify now q db).1 ≠ Status500).
Proof.
  intros HI%reachable_Inv.
  assert (((identify now q db).1 = Status400 ↔
           ¬ (truthy (q_email q) ∨ truthy (q_phoneNumber q))) ∧
          ((identify now q db).1 = Status500 ↔
           (truthy (q_email q) ∨ truthy (q_phoneNumber q)) ∧
           filter (matches q) (contacts db) = [] ∧
           next_id db ∈ contact_id <$> contacts db) ∧
          ((∀ s, (identify now q db).1 ≠ Json s) →
           (identify now q db).2 = db)) as (H400 & H500 & Hdb).
  { unfold identify. case_decide as Hq; [|split_and!; [done| |done]];
      last first.
    { split; [done|]. by intros [? _]. }
    destruct (filter (matches q) (contacts db)) as [|c0 cs0] eqn:Ematch.
    - rewrite identify_new_spec by done. case_decide as Hin; simpl.
      + split_and!; [split; done|split; done|done].
      + split_and!; [split; done| |].
        * split; [done|]. by intros (_ & _ & ?).
        * intros Hjson. by edestruct Hjson.
    - assert (c0 :: cs0 ≠ []) as Hne by done. rewrite <- Ematch in Hne.
      assert (∃ s db', identify_merge (c0 :: cs0) db = (Json s, db'))
        as (s & db' & ->).
      { rewrite <- Ematch.
        destruct (identify_merge_spec _ db HI Hne (filter_matches_sub q db))
          as (b & db' & -> & _). eauto. }
      simpl. split_and!; [split; done| |].
      + split; [done|]. by intros (_ & ? & _).
      + intros Hjson. by edestruct Hjson. }
  split_and!; [done..|].
  intros Hsafe (_ & _ & Hin)%H500.
  apply list_elem_of_fmap in Hin as (c & Hid & Hc).
  pose proof (proj1 (next_id_safe db Hsafe) c Hc). lia.
Qed.

Lemma identify_outcome_witness :
  reachable db_pair ∧
  identify 20 {| q_email := Some EmptyString; q_phoneNumber := None |} db_pair
  = (Status400, db_pair) ∧
  reachable db_big ∧
  identify 20 (by_email "new@x.com") db_big = (Status500, db_big) ∧
  (identify 20 (by_email "new@x.com") db_pair).1 ≠ Status500.
Proof.
  assert (reachable db_pair) as Hr by (by exists ops_pair).
  assert (reachable db_big) as Hbig by (by exists ops_big).
  split; [exact Hr|]. split; [|split; [exact Hbig|split]].
  - set (q := {| q_email := Some EmptyString; q_phoneNumber := None |}).
    destruct (identify_outcome 20 q db_pair Hr) as (H400 & _ & Hdb & _).
    assert ((identify 20 q db_pair).1 = Status400) as Hresp.
    { apply H400. intros [Ht|Ht]; [by apply Ht|done]. }
    rewrite (surjective_pairing (identify 20 q db_pair)), Hresp, Hdb;
      [reflexivity|].
    intros s. rewrite Hresp. discriminate.
  - destruct (identify_outcome 20 (by_email "new@x.com") db_big Hbig)
      as (_ & H500 & Hdb & _).
    assert ((identify 20 (by_email "new@x.com") db_big).1 = Status500)
      as Hresp.
    { apply H500. split_and!; [left; discriminate|reflexivity|by_decide]. }
    rewrite (surjective_pairing (identify 20 _ db_big)), Hresp, Hdb;
      [reflexivity|].
    intros s. rewrite Hresp. discriminate.
  - apply (identify_outcome 20 (by_email "new@x.com") db_pair Hr).
    apply Forall_forall. by_decide.
Defined.

(** ** What [/add-contact] links *)

Lemma roots_grow_refl db : roots_grow db db.
Proof. by intros x y. Qed.

Lemma roots_grow_trans db1 db2 db3 :
  roots_grow db1 db2 → roots_grow db2 db3 → roots_grow db1 db3.
Proof. intros H12 H23 x y Hxy. by apply H23, H12. Qed.

Lemma unionSets_roots_grow a b db : Inv db → roots_grow db (unionSets a b db).
Proof.
  intros _ x y (r & Hx & Hy).
  destruct (decide (is_root db a ∧ is_root db b)) as [[Ha Hb]|Hmiss];
    last first.
  { rewrite unionSets_not_found; [by exists r|].
    destruct (decide (is_root db a)) as [Ha|Ha];
      [right|left]; apply eq_None_not_Some; rewrite <- is_root_findOne; tauto. }
  exists (if decide (r = a ∨ r = b) then Z.min a b else r).
  split; apply unionSets_has_root; eauto.
Qed.

Lemma union_roots_roots_grow newRoot roots db :
  Inv db → roots_grow db (union_roots newRoot roots db).
Proof.
  apply (union_roots_mono roots_grow roots_grow_refl roots_grow_trans
           unionSets_roots_grow).
Qed.

(** Once no row has the root of the new contact, its unions change
    nothing. *)
Lemma union_roots_not_root newRoot roots db :
  ¬ is_root db newRoot → union_roots newRoot roots db = db.
Proof.
  intros Hroot. unfold union_roots.
  induction roots as [|r roots IH]; simpl; [done|].
  case_decide; [|done]. rewrite unionSets_not_found; [done|]. left.
  apply eq_None_not_Some. by rewrite <- is_root_findOne.
Qed.

Lemma is_root_saved_store_new db c : is_root (saved_store c db) (contact_id c).
Proof. eapply has_root_is_root, has_root_saved_store_new. Qed.

(** The roots of the rows that were there are ids of earlier contacts. *)
Lemma has_root_old db x r :
  Inv db → has_root db x r → r ∈ contact_id <$> contacts db.
Proof.
  intros HI (p & Hp & _ & <-). eapply has_root_contact; [done|].
  by apply (inv_root _ HI).
Qed.

(** The union with the root of the linked contact (lines 113-121). *)
Lemma union_linked_found body db c l :
  Inv db → contact_id c ∉ contact_id <$> contacts db →
  body_linkPrecedence body = Some secondary →
  parseInt_linkedId (body_linkedId body) = Some l →
  l ∈ contact_id <$> contacts db →
  ∃ p, findOne (λ p, l ∈ childIds p) (parents db) = Some p ∧
       has_root db l (parId p) ∧ parId p ≠ contact_id c ∧
       union_linked body (contact_id c) (saved_store c db) =
       unionSets (parId p) (contact_id c) (saved_store c db).
Proof.
  intros HI Hfresh Hsec Hl Hin.
  destruct (contact_has_root db l HI Hin) as [r Hr].
  pose proof (has_root_find_root db l r HI Hr) as Hfind.
  unfold find_root in Hfind.
  destruct (findOne (λ p, l ∈ childIds p) (parents db)) as [p|] eqn:Ep;
    [|done].
  injection Hfind as <-. exists p.
  assert (parId p ≠ contact_id c) as Hne.
  { intros Heq. apply Hfresh. rewrite <- Heq. by eapply has_root_old. }
  split_and!; [done..|].
  unfold union_linked. rewrite Hsec, Hl. simpl.
  rewrite (findOne_app_l _ _ _ _ Ep). by rewrite decide_True.
Qed.

(** After the union of the root of an earlier contact with the root of
    the new one, the two rows have one root. *)
Lemma unionSets_joins db c x r :
  has_root db x r → r ≠ contact_id c →
  same_root (unionSets r (contact_id c) (saved_store c db)) (contact_id c) x ∧
  same_root (unionSets (contact_id c) r (saved_store c db)) (contact_id c) x.
Proof.
  intros Hx Hne.
  assert (same_root (unionSets r (contact_id c) (saved_store c db))
            (contact_id c) x) as Hsame.
  { exists (Z.min r (contact_id c)).
    split; apply unionSets_has_root;
      try (by apply is_root_saved_store_new);
      try (eapply has_root_is_root; by apply has_root_saved_store).
    - exists (contact_id c). split; [apply has_root_saved_store_new|].
      by rewrite decide_True by auto.
    - exists r. split; [by apply has_root_saved_store|].
      by rewrite decide_True by auto. }
  split; [done|]. by rewrite unionSets_comm.
Qed.

(** X7.  A secondary contact whose [linkedId], sent as text, names an
    earlier contact ends with the root of that contact: the row created
    for it and the row of the linked contact have one [parId]. *)
Theorem addContact_joins_linked now body db c l :
  reachable db → new_contact now body = Some c →
  body_id body ∉ contact_id <$> contacts db →
  body_linkPrecedence body = Some secondary → body_linkedId body = Linked l →
  l ∈ contact_id <$> contacts db →
  same_root (addContact now body db).2 (body_id body) l.
Proof.
  intros HI%reachable_Inv Hc Hfresh Hsec Hl Hin.
  assert (¬ linkedId_required body) as Hreq.
  { intros [_ [?|?]]; congruence. }
  assert (¬ trim_throws body) as Hthrow.
  { intros [_ [? ?]]; congruence. }
  rewrite (addContact_success now body db c) by done. simpl.
  pose proof (new_contact_id _ _ _ Hc) as Hid. rewrite <- Hid in *.
  assert (Inv (saved_store c db)) as HI1 by (by apply Inv_saved_store).
  destruct (union_linked_found body db c l HI Hfresh Hsec) as
    (p & _ & Hroot & Hne & ->); [by rewrite Hl|done|].
  apply union_roots_roots_grow; [by apply unionSets_Inv|].
  by apply unionSets_joins.
Qed.

Lemma addContact_joins_linked_witness :
  reachable db_three ∧
  same_root
    (addContact 20
       (contact_body 7 (Some "e@x.com") None (Linked 9) secondary)
       db_three).2 7 9.
Proof.
  assert (reachable db_three) as Hr by (by exists ops_three).
  split; [exact Hr|].
  apply (addContact_joins_linked 20
           (contact_body 7 (Some "e@x.com") None (Linked 9) secondary)
           db_three _ 9 Hr eq_refl); [by_decide|reflexivity|reflexivity|].
  by_decide.
Defined.

(** X8.  When the root of the linked contact is smaller than the new id,
    the union with it puts the row of the new contact under that root,
    and the unions with the contacts that share its email or phone number
    then find no row of the root of the new contact and change nothing:
    the request ends on the store of that one union. *)
Theorem addContact_secondary_absorbed now body db c l p :
  reachable db → new_contact now body = Some c →
  body_id body ∉ contact_id <$> contacts db →
  body_linkPrecedence body = Some secondary → body_linkedId body = Linked l →
  findOne (λ p, l ∈ childIds p) (parents db) = Some p →
  parId p < body_id body →
  addContact now body db =
  (RedirectIndex, unionSets (parId p) (body_id body) (saved_store c db)).
Proof.
  intros HI%reachable_Inv Hc Hfresh Hsec Hl Ep Hlt.
  assert (¬ linkedId_required body) as Hreq.
  { intros [_ [?|?]]; congruence. }
  assert (¬ trim_throws body) as Hthrow.
  { intros [_ [? ?]]; congruence. }
  assert (l ∈ contact_id <$> contacts db) as Hin.
  { pose proof Ep as [Hp Hlp]%findOne_Some.
    eapply has_root_contact; [done|]. by apply (inv_members _ HI p). }
  rewrite (addContact_success now body db c) by done. f_equal.
  pose proof (new_contact_id _ _ _ Hc) as Hid. rewrite <- Hid in *.
  destruct (union_linked_found body db c l HI Hfresh Hsec) as
    (p' & Ep' & Hroot & Hne & ->); [by rewrite Hl|done|].
  assert (p' = p) as -> by congruence.
  apply union_roots_not_root.
  rewrite <- (Z.max_r (parId p) (contact_id c)) at 2 by lia.
  apply unionSets_old_root_gone; [done| |apply is_root_saved_store_new].
  eapply has_root_is_root. by apply has_root_saved_store.
Qed.

Lemma addContact_secondary_absorbed_witness :
  reachable db_three ∧
  parents
    (addContact 20
       (contact_body 7 (Some "i@x.com") None (Linked 2) secondary)
       db_three).2 =
  [{| parent_id := 5; parId := 5; childIds := [5] |};
   {| parent_id := 2; parId := 2; childIds := [2; 7] |};
   {| parent_id := 9; parId := 9; childIds := [9] |};
   {| parent_id := 7; parId := 2; childIds := [7] |}].
Proof.
  assert (reachable db_three) as Hr by (by exists ops_three).
  split; [exact Hr|].
  rewrite (addContact_secondary_absorbed 20
             (contact_body 7 (Some "i@x.com") None (Linked 2) secondary)
             db_three _ 2 {| parent_id := 2; parId := 2; childIds := [2] |}
             Hr eq_refl);
    [reflexivity|by_decide|reflexivity|reflexivity|reflexivity|reflexivity].
Defined.

(** X9.  A primary contact that shares its email or its phone number
    with earlier contacts ends with the root of the first of them, in the
    order of the collection: the row created for it and the row of that
    contact have one [parId]. *)
Theorem addContact_joins_first_match now body db c c0 others :
  reachable db → new_contact now body = Some c →
  body_id body ∉ contact_id <$> contacts db →
  body_linkPrecedence body = Some primary →
  filter (matching body) (contacts db) = c0 :: others →
  same_root (addContact now body db).2 (body_id body) (contact_id c0).
Proof.
  intros HI%reachable_Inv Hc Hfresh Hprim Hfilter.
  assert (¬ linkedId_required body) as Hreq.
  { intros [? _]; congruence. }
  assert (¬ trim_throws body) as Hthrow.
  { intros [? _]; congruence. }
  rewrite (addContact_success now body db c) by done. cbn [snd].
  pose proof (new_contact_id _ _ _ Hc) as Hid. rewrite <- Hid in *.
  assert (Inv (saved_store c db)) as HI1 by (by apply Inv_saved_store).
  assert (union_linked body (contact_id c) (saved_store c db) =
          saved_store c db) as ->
    by (unfold union_linked; by rewrite Hprim).
  assert (c0 ∈ contacts db) as Hc0.
  { assert (c0 ∈ filter (matching body) (contacts db)) as Hin
      by (rewrite Hfilter; left).
    by apply list_elem_of_filter in Hin as [_ ?]. }
  destruct (contact_has_root db (contact_id c0) HI) as [r Hr].
  { by apply list_elem_of_fmap_2. }
  pose proof (has_root_find_root db _ r HI Hr) as Hfind.
  unfold find_root in Hfind.
  destruct (findOne (λ p, contact_id c0 ∈ childIds p) (parents db))
    as [p|] eqn:Ep; [|done].
  injection Hfind as <-.
  assert (parId p ≠ contact_id c) as Hne.
  { intros Heq. apply Hfresh. rewrite <- Heq. by eapply has_root_old. }
  rewrite filter_app, Hfilter, fmap_app. cbn [fmap list_fmap app].
  destruct (roots_of_head (parents (saved_store c db)) (contact_id c0)
              ((contact_id <$> others) ++
               (contact_id <$> filter (matching body) [c])) p)
    as [rest Hroots].
  { simpl. by apply findOne_app_l. }
  rewrite Hroots. unfold union_roots. cbn [foldl].
  rewrite decide_True by done.
  apply (union_roots_roots_grow (contact_id c) rest); [by apply unionSets_Inv|].
  by apply unionSets_joins.
Qed.

Lemma addContact_joins_first_match_witness :
  reachable db_two_sets ∧
  same_root (addContact 12 third_contact db_two_sets).2 3 1 ∧
  ¬ same_root (addContact 12 third_contact db_two_sets).2 3 2.
Proof.
  assert (reachable db_two_sets) as Hr by (by eexists).
  split; [exact Hr|]. split.
  - exact (addContact_joins_first_match 12 third_contact db_two_sets _ _ _
             Hr eq_refl ltac:(by_decide) eq_refl eq_refl).
  - intros (r & H3 & H2). revert H3 H2.
    assert (∀ r, has_root (addContact 12 third_contact db_two_sets).2 3 r →
                 r = 1) as H31.
    { intros r' (p & Hp & Hid & <-). vm_compute in Hp.
      repeat (apply elem_of_cons in Hp as [->|Hp]; [by simpl in *|]).
      by apply elem_of_nil in Hp. }
    intros ->%H31 (p & Hp & Hid & Hpar). vm_compute in Hp.
    repeat (apply elem_of_cons in Hp as [->|Hp]; [by simpl in *|]).
    by apply elem_of_nil in Hp.
Defined.

(** With a first argument that no root is smaller than, the loop of
    [/add-contact] is the loop of [/identify]. *)
Lemma union_roots_union_all newRoot roots db :
  (∀ r, r ∈ roots → newRoot ≤ r) →
  union_roots newRoot roots db = (union_all roots newRoot db).2.
Proof.
  unfold union_roots. revert db.
  induction roots as [|r roots IH]; intros db Hle; simpl; [done|].
  assert (newRoot ≤ r) by (apply Hle; left).
  rewrite Z.min_l by done.
  case_decide; apply IH; intros r' Hr'; apply Hle; by right.
Qed.

(** The union with the root of the linked contact, when no root is
    smaller than the new id. *)
Lemma union_linked_smallest body db newRoot :
  is_root db newRoot → (∀ r, is_root db r → newRoot ≤ r) →
  ∃ D, least newRoot D ∧
       merged_roots db D newRoot (union_linked body newRoot db).
Proof.
  intros Hnew Hle.
  assert (∃ D, least newRoot D ∧ merged_roots db D newRoot db) as Hsame.
  { exists [newRoot]. split; [|apply merged_roots_init].
    split; [left|]. by intros d ->%list_elem_of_singleton. }
  unfold union_linked.
  destruct (body_linkPrecedence body) as [[]|]; try done.
  destruct (parseInt_linkedId (body_linkedId body)) as [l|]; [|done].
  destruct (findOne (λ p, l ∈ childIds p) (parents db)) as [p|] eqn:Ep;
    [|done].
  case_decide as Hne; [|done].
  apply findOne_Some in Ep as [Hp _].
  assert (is_root db (parId p)) as Hroot by (by exists p).
  exists [parId p; newRoot]. split.
  - split; [right; left|].
    intros d [->|Hd%list_elem_of_singleton]%elem_of_cons;
      [by apply Hle|by subst d].
  - rewrite <- (Z.min_r (parId p) newRoot) at 2 by (by apply Hle).
    by apply unionSets_merged_roots.
Qed.

(** X10.  A contact whose id is smaller than the id of every earlier
    contact becomes the root of every earlier contact that shares its
    email or its phone number: the rows of these contacts, and its own,
    end with its id as their [parId]. *)
Theorem addContact_smallest_id_joins_all now body db c c0 :
  reachable db → ¬ linkedId_required body → ¬ trim_throws body →
  new_contact now body = Some c →
  (∀ c', c' ∈ contacts db → body_id body < contact_id c') →
  c0 ∈ contacts db → matching body c0 →
  has_root (addContact now body db).2 (contact_id c0) (body_id body) ∧
  has_root (addContact now body db).2 (body_id body) (body_id body).
Proof.
  intros HI%reachable_Inv Hreq Hthrow Hc Hsmall Hc0 Hmatch.
  assert (∀ i, i ∈ contact_id <$> contacts db → body_id body < i) as Hlt.
  { intros i (c' & -> & Hc')%list_elem_of_fmap. by apply Hsmall. }
  assert (body_id body ∉ contact_id <$> contacts db) as Hfresh.
  { intros Hin%Hlt. lia. }
  rewrite (addContact_success now body db c) by done. cbn [snd].
  pose proof (new_contact_id _ _ _ Hc) as Hid. rewrite <- Hid in *.
  set (saved := saved_store c db).
  assert (Inv saved) as HI1 by (by apply Inv_saved_store).
  assert (is_root saved (contact_id c)) as Hnew
    by apply is_root_saved_store_new.
  assert (∀ r, is_root saved r → contact_id c ≤ r) as Hle.
  { intros r (p & [Hp|Hp%list_elem_of_singleton]%elem_of_app & <-);
      [|by subst p].
    assert (parId p ∈ contact_id <$> contacts db) as Hin.
    { eapply has_root_contact; [done|]. by apply (inv_root _ HI). }
    apply Hlt in Hin. lia. }
  destruct (union_linked_smallest body saved (contact_id c) Hnew Hle)
    as (D & HD & Hv).
  match goal with
  | |- context [union_roots _ ?rs _] => set (roots := rs)
  end.
  assert (∀ r, r ∈ roots → is_root saved r) as Hroots.
  { intros r (mid & p & _ & [Hp _]%findOne_Some & <-)%elem_of_roots_of.
    by exists p. }
  rewrite union_roots_union_all by (intros r Hr; by apply Hle, Hroots).
  destruct (union_all_merged saved roots D (contact_id c)
              (union_linked body (contact_id c) saved) Hv HD Hnew)
    as (Hleast & _ & Hfinal).
  { intros r Hr. left. by apply Hroots. }
  assert (least (contact_id c) (roots ++ D)) as Hmin.
  { split; [apply elem_of_app; right; apply HD|].
    intros d [Hd|Hd]%elem_of_app; [by apply Hle, Hroots|by apply HD]. }
  rewrite (least_unique _ _ _ Hleast Hmin) in Hfinal.
  destruct (contact_has_root db (contact_id c0) HI) as [r0 Hr0].
  { by apply list_elem_of_fmap_2. }
  split.
  - apply Hfinal. exists r0. split; [by apply has_root_saved_store|].
    rewrite decide_True; [done|]. apply elem_of_app. left.
    apply elem_of_roots_of.
    pose proof (has_root_find_root db _ r0 HI Hr0) as Hfind.
    unfold find_root in Hfind.
    destruct (findOne (λ p, contact_id c0 ∈ childIds p) (parents db))
      as [p|] eqn:Ep; [|done].
    injection Hfind as <-. exists (contact_id c0), p. split_and!; [| |done].
    + apply list_elem_of_fmap_2, list_elem_of_filter. split; [done|].
      apply elem_of_app. by left.
    + simpl. by apply findOne_app_l.
  - apply Hfinal. exists (contact_id c).
    split; [apply has_root_saved_store_new|].
    rewrite decide_True; [done|]. apply elem_of_app. right. apply HD.
Qed.

Lemma addContact_smallest_id_joins_all_witness :
  reachable db_three ∧
  has_root
    (addContact 20
       (contact_body 1 (Some "e@x.com") (Some "999") LinkedMissing primary)
       db_three).2 9 1 ∧
  has_root
    (addContact 20
       (contact_body 1 (Some "e@x.com") (Some "999") LinkedMissing primary)
       db_three).2 5 1.
Proof.
  assert (reachable db_three) as Hr by (by exists ops_three).
  split; [exact Hr|].
  set (body := contact_body 1 (Some "e@x.com") (Some "999") LinkedMissing
                 primary).
  set (c9 := {| contact_id := 9; phoneNumber := Some "999";
                email := Some "i@x.com"; linkedId := None;
                linkPrecedence := primary; createdAt := 12;
                updatedAt := 12 |}).
  set (c5 := {| contact_id := 5; phoneNumber := Some "555";
                email := Some "e@x.com"; linkedId := None;
                linkPrecedence := primary; createdAt := 10;
                updatedAt := 10 |}).
  assert (¬ linkedId_required body) as Hreq by (intros [? _]; discriminate).
  assert (¬ trim_throws body) as Hthrow by (intros [? _]; discriminate).
  assert (∀ c', c' ∈ contacts db_three → body_id body < contact_id c')
    as Hsmall.
  { apply Forall_forall. by_decide. }
  assert (c9 ∈ contacts db_three) as H9 by by_decide.
  assert (matching body c9) as Hm9 by by_decide.
  assert (c5 ∈ contacts db_three) as H5 by by_decide.
  assert (matching body c5) as Hm5 by by_decide.
  split.
  - exact (proj1 (addContact_smallest_id_joins_all 20 body db_three _ c9
                    Hr Hreq Hthrow eq_refl Hsmall H9 Hm9)).
  - exact (proj1 (addContact_smallest_id_joins_all 20 body db_three _ c5
                    Hr Hreq Hthrow eq_refl Hsmall H5 Hm5)).
Defined.

(** ** A contact that was added is found *)

Lemma addContact_success_inv now body db :
  Inv db → (addContact now body db).1 = RedirectIndex →
  ∃ c, ¬ linkedId_required body ∧ ¬ trim_throws body ∧
       new_contact now body = Some c ∧
       body_id body ∉ contact_id <$> contacts db.
Proof.
  intros HI Hok.
  destruct (decide (linkedId_required body ∨ trim_throws body ∨
                    new_contact now body = None ∨
                    body_id body ∈ contact_id <$> contacts db)) as [Hfail|Hne].
  { by destruct (addContact_failure now body db HI Hfail) as [? _]. }
  destruct (new_contact now body) as [c|] eqn:Ec; [|tauto].
  exists c. tauto.
Qed.

Lemma new_contact_email now body c :
  new_contact now body = Some c → email c = body_email body.
Proof. unfold new_contact. repeat case_match; by intros [= <-]. Qed.

(** X18.  A contact added with an email is matched by that email: the
    [/identify] that follows answers a summary of the match branch, with
    both fields of the primary id, whose primary id is the root of the row
    of that contact afterwards and is not greater than its id. *)
Theorem addContact_then_identify now now' body db e :
  reachable db →
  (addContact now body db).1 = RedirectIndex →
  body_email body = Some e → e ≠ EmptyString →
  ∃ s db' b,
    identify now' (by_email e) (addContact now body db).2 = (Json s, db') ∧
    primaryContatctId s = Some (Num b) ∧ primaryContactId s = Num b ∧
    b ≤ body_id body ∧ has_root db' (body_id body) b.
Proof.
  intros HI%reachable_Inv Hok He Hne.
  destruct (addContact_success_inv now body db HI Hok)
    as (c & Hreq & Hthrow & Hc & Hfresh).
  pose proof (addContact_Inv now body db HI) as HI1.
  assert (contacts (addContact now body db).2 = contacts db ++ [c]) as Hcs.
  { rewrite (addContact_success now body db c) by done. cbn [snd].
    by rewrite union_roots_contacts, union_linked_contacts. }
  set (db1 := (addContact now body db).2) in *.
  pose proof (new_contact_id _ _ _ Hc) as Hid.
  assert (c ∈ contacts db1) as Hin.
  { rewrite Hcs. apply elem_of_app. right. by apply list_elem_of_singleton. }
  assert (email c = Some e) as Hemail
    by (by rewrite (new_contact_email _ _ _ Hc)).
  assert (matches (by_email e) c) as Hmatch by (by left).
  assert (c ∈ filter (matches (by_email e)) (contacts db1)) as Hfilter
    by (by apply list_elem_of_filter).
  assert (filter (matches (by_email e)) (contacts db1) ≠ []) as Hnil.
  { intros Hnil. rewrite Hnil in Hfilter. by apply elem_of_nil in Hfilter. }
  destruct (identify_merge_spec _ db1 HI1 Hnil (filter_matches_sub _ db1))
    as (b & db' & Heq & _ & HI' & Hcs' & Hleast & Hv).
  assert (is_root db' b) as Hroot.
  { apply (merged_roots_is_root _ _ _ _ _ Hv). left. split; [done|].
    exists b. split; [apply Hleast|].
    by eapply rootsArr_of_is_root, Hleast. }
  apply is_root_findOne in Hroot as [final Hfind].
  destruct (contact_has_root db1 (contact_id c) HI1) as [r0 Hr0].
  { by apply list_elem_of_fmap_2. }
  pose proof (matched_root _ db1 c r0 HI1 Hfilter Hr0) as Hr0in.
  exists (match_summary b db'), db', b.
  rewrite identify_match by done.
  rewrite (match_summary_spec _ _ _ Hfind). rewrite <- Hid.
  split_and!; [by rewrite Heq, (match_summary_spec _ _ _ Hfind)|done|done| |].
  - apply Hleast in Hr0in. destruct Hr0 as (p & Hp & <- & <-).
    pose proof (inv_least _ HI1 p Hp). lia.
  - apply Hv. exists r0. split; [done|]. by rewrite decide_True.
Qed.

Lemma addContact_then_identify_witness :
  reachable db_nine_five ∧
  ∃ s db',
    identify 20 (by_email "e@x.com")
      (addContact 12 linked_contact db_nine_five).2 = (Json s, db') ∧
    primaryContactId s = Num 5 ∧ secondaryContactIds s = [9] ∧
    has_root db' 7 5.
Proof.
  assert (reachable db_nine_five) as Hr by (by eexists).
  split; [exact Hr|].
  assert ("e@x.com" ≠ EmptyString) as Hne by discriminate.
  destruct (addContact_then_identify 12 20 linked_contact db_nine_five
              "e@x.com" Hr eq_refl eq_refl Hne)
    as (s & db' & b & Heq & _ & Hb & _ & Hroot).
  exists s, db'. split; [exact Heq|].
  vm_compute in Heq. injection Heq as <- <-.
  injection Hb as <-. split_and!; [reflexivity|reflexivity|exact Hroot].
Defined.
